(** * factiva_parser: the field-tag parser and batch loader of
    [factiva_parse.ipynb], embedded in Rocq.

    The notebook defines one function, [factiva_to_df(path)].  It lists the
    [.txt] files of a folder, cuts every file at the "Search Summary"
    header, splits it into articles on the form feed character, splits every
    article on the field-code pattern [(\s[A-Z]{2,3}\n)], walks the pieces
    to build a dictionary from field codes to text, and appends the
    dictionary as one row of a data frame whose columns are [fieldnames].

    Python strings are sequences of Unicode code points: a character is its
    code point ([N]), a string a list of them.  Dictionaries are [gmap]s. *)

From Stdlib Require Import NArith Ascii String.
From stdpp Require Import gmap list sorting.

Local Open Scope N_scope.

Abbreviation char := N (only parsing).
Abbreviation str := (list N) (only parsing).

(** Python string literals, written as Rocq strings. *)
Definition py (s : string) : str :=
  map N_of_ascii (list_ascii_of_string s).

(** ** Character classes *)

(** [str.isspace] and the [\s] of [re] on [str] patterns agree: both are
    CPython's Unicode white space test. *)
Definition isspace (c : char) : bool :=
  ((9 <=? c) && (c <=? 13)) || ((28 <=? c) && (c <=? 32))
  || (c =? 133) || (c =? 160) || (c =? 5760)
  || ((8192 <=? c) && (c <=? 8202))
  || (c =? 8232) || (c =? 8233) || (c =? 8239) || (c =? 8287)
  || (c =? 12288).

(** [[A-Z]] *)
Definition isupper (c : char) : bool := (65 <=? c) && (c <=? 90).

(** [\n] *)
Definition nl : char := 10.
Definition is_nl (c : char) : bool := c =? nl.

(** ** [str.strip()] *)

Fixpoint lstrip (s : str) : str :=
  match s with
  | c :: s' => if isspace c then lstrip s' else s
  | [] => []
  end.

Definition rstrip (s : str) : str := rev (lstrip (rev s)).

Definition strip (s : str) : str := rstrip (lstrip s).

(** ** Regular expressions

    A pattern is modelled by its matcher at the head of a string: the
    length of the match [re.match] finds there, if any.  None of the
    notebook's patterns matches the empty string. *)

Definition matcher := str -> option nat.

(** A literal pattern (['\f'], ['\nSearch Summary\n']). *)
Fixpoint starts_with (pat s : str) : bool :=
  match pat, s with
  | [], _ => true
  | p :: pat', c :: s' => (p =? c) && starts_with pat' s'
  | _ :: _, [] => false
  end.

Definition match_lit (pat : str) : matcher :=
  fun s => if starts_with pat s then Some (length pat) else None.

(** [regex = '(\s[A-Z]{2,3}\n)']: a white space character, two or three
    capitals (three are tried first), a line feed. *)
Definition match_tag : matcher :=
  fun s =>
    match s with
    | w :: a :: b :: r =>
        if isspace w && isupper a && isupper b then
          match r with
          | c :: d :: _ =>
              if isupper c && is_nl d then Some 5%nat
              else if is_nl c then Some 4%nat else None
          | [c] => if is_nl c then Some 4%nat else None
          | [] => None
          end
        else None
    | _ => None
    end.

(** ['^HD\s'] and ['^SE\s']: the two letters of [code], then white space. *)
Definition match_inline (code : str) : matcher :=
  fun s =>
    if starts_with code s then
      match drop (length code) s with
      | w :: _ => if isspace w then Some (S (length code)) else None
      | [] => None
      end
    else None.

(** [re.match(pattern, s)] used as a condition. *)
Definition re_match (m : matcher) (s : str) : bool :=
  match m s with Some _ => true | None => false end.

(** The leftmost match of a pattern in [s]: the text before it, the matched
    text and the text after it. *)
Fixpoint search (m : matcher) (s : str) : option (str * str * str) :=
  match m s with
  | Some n => Some ([], take n s, drop n s)
  | None =>
      match s with
      | [] => None
      | c :: s' =>
          match search m s' with
          | Some (a, d, b) => Some (c :: a, d, b)
          | None => None
          end
      end
  end.

(** [re.split(pattern, s)]: the texts between the successive matches; when
    the pattern is one capturing group ([capture]), every matched text is
    kept between them.  The recursion is on the text after the match, which
    is shorter than [s]; [fuel] bounds it and [length s] is enough
    ([re_split_eq]). *)
Fixpoint split_fuel (m : matcher) (capture : bool) (fuel : nat) (s : str)
  : list str :=
  match fuel with
  | O => [s]
  | S fuel' =>
      match search m s with
      | Some (a, d, b) =>
          a :: (if capture then [d] else []) ++ split_fuel m capture fuel' b
      | None => [s]
      end
  end.

Definition re_split (m : matcher) (capture : bool) (s : str) : list str :=
  split_fuel m capture (length s) s.

(** ** Configuration of the notebook *)

(** [sep = '\f'] *)
Definition sep : str := [12].

(** [search_sum = '\nSearch Summary\n'] *)
Definition search_sum : str := nl :: py "Search Summary" ++ [nl].

Definition HD : str := py "HD".
Definition SE : str := py "SE".

(** The [fieldnames] of the notebook as published; the list is meant to be
    edited, so the functions below take it as an argument. *)
Definition default_fieldnames : list str :=
  map py ["SE"; "HD"; "WC"; "PD"; "SN"; "SC"; "LA"; "CY"; "NS"; "CO"; "RE";
          "PUB"; "AN"; "LP"; "TD"]%string.

(** ** The walk over the pieces of one article *)

Record walk_state := WalkState {
  key : str;
  value : str;
  metadata_dict : gmap str str
}.

(** [key, value = '', ''] and [metadata_dict = {}] *)
Definition walk_init : walk_state := WalkState [] [] ∅.

(** [if key in fieldnames: metadata_dict[key] = value] *)
Definition store (fieldnames : list str) (k v : str) (d : gmap str str)
  : gmap str str :=
  if bool_decide (k ∈ fieldnames) then <[k := v]> d else d.

(** The body of [for split in splits]. *)
Definition walk_step (fieldnames : list str) (st : walk_state) (split : str)
  : walk_state :=
  let '(k, v) :=
    if re_match (match_inline HD) split then (HD, strip (drop 3 split))
    else if re_match (match_inline SE) split then (SE, strip (drop 3 split))
    else if re_match match_tag split then (strip split, value st)
    else (key st, strip split) in
  WalkState k v (store fieldnames k v (metadata_dict st)).

Definition walk (fieldnames : list str) (st : walk_state) (splits : list str)
  : walk_state :=
  foldl (walk_step fieldnames) st splits.

(** The dictionary built from one stripped, non-empty article [doc]. *)
Definition parse_doc (fieldnames : list str) (doc : str) : gmap str str :=
  metadata_dict (walk fieldnames walk_init (re_split match_tag true doc)).

(** ** The data frame

    [pd.DataFrame(columns = fieldnames)] is a table with the given column
    labels and no row.  [df.loc[len(df)] = d] for a dictionary [d] adds one
    row at a new label: pandas aligns [d] to the columns, so every column
    gets the value [d] has for its label, or a missing value.  On a frame
    that has no column pandas refuses the assignment with a [ValueError]
    (cannot set a frame with no defined columns). *)
Record DataFrame := mkDataFrame {
  columns : list str;
  rows : list (list (option str))
}.

Definition new_frame (fieldnames : list str) : DataFrame :=
  mkDataFrame fieldnames [].

Definition row_of (cols : list str) (d : gmap str str) : list (option str) :=
  map (fun c => d !! c) cols.

(** [df.loc[len(df)] = d]; [None] stands for the [ValueError]. *)
Definition loc_append (df : DataFrame) (d : gmap str str)
  : option DataFrame :=
  match columns df with
  | [] => None
  | _ :: _ =>
      Some (mkDataFrame (columns df) (rows df ++ [row_of (columns df) d]))
  end.

(** ** The loader *)

(** The body of [for doc in docs]; [None] when the row assignment
    raises. *)
Definition process_doc (fieldnames : list str) (df : DataFrame) (doc : str)
  : option DataFrame :=
  let doc := strip doc in
  match doc with
  | [] => Some df
  | _ :: _ => loc_append df (parse_doc fieldnames doc)
  end.

(** [for doc in docs]: an exception ends the loop. *)
Fixpoint load_docs (fieldnames : list str) (df : DataFrame) (docs : list str)
  : option DataFrame :=
  match docs with
  | [] => Some df
  | doc :: docs' =>
      match process_doc fieldnames df doc with
      | Some df' => load_docs fieldnames df' docs'
      | None => None
      end
  end.

(** [re.split(search_sum, text)[0]]; [re.split] never returns an empty
    list ([re_split_not_nil]), so the index is always in range. *)
Definition drop_search_sum (text : str) : str :=
  match re_split (match_lit search_sum) false text with
  | first :: _ => first
  | [] => []
  end.

(** The part of the body of [for filename in files_all] that follows the
    reading of the file. *)
Definition load_text (fieldnames : list str) (df : DataFrame) (text : str)
  : option DataFrame :=
  let text := drop_search_sum text in
  let docs := re_split (match_lit sep) false text in
  load_docs fieldnames df docs.

(** ** The folder of input files *)

(** Python compares strings code point by code point. *)
Fixpoint str_leb (a b : str) : bool :=
  match a, b with
  | [], _ => true
  | _ :: _, [] => false
  | x :: a', y :: b' => (x <? y) || ((x =? y) && str_leb a' b')
  end.

Definition str_le (a b : str) : Prop := str_leb a b = true.

#[global] Instance str_le_dec a b : Decision (str_le a b).
Proof. unfold str_le. apply _. Defined.

Definition ends_with (suffix s : str) : bool :=
  starts_with (rev suffix) (rev s).

(** [glob._ishidden]: the name starts with a dot. *)
Definition ishidden (name : str) : bool := starts_with (py ".") name.

(** [fnmatch] of a name against ["*.txt"] (POSIX: case matters). *)
Definition fnmatch_txt (name : str) : bool := ends_with (py ".txt") name.

(** The path separator [/]. *)
Definition slash : char := 47.

(** [glob.has_magic]: the string holds one of the wildcard characters
    [*], [?] and the opening square bracket. *)
Definition has_magic (s : str) : bool :=
  existsb (fun c => (c =? 42) || (c =? 63) || (c =? 91)) s.

(** [s.rstrip('/')], taken from the front of the reversed string. *)
Fixpoint lstrip_slash (s : str) : str :=
  match s with
  | c :: s' => if c =? slash then lstrip_slash s' else s
  | [] => []
  end.

Definition rstrip_slash (s : str) : str := rev (lstrip_slash (rev s)).

(** The directory part [os.path.split(path + "*.txt")[0]] for a [path]
    that ends with the separator: [path] without its trailing separators,
    unless it is made of separators only. *)
Definition glob_dirname (path : str) : str :=
  if forallb (fun c => c =? slash) path then path else rstrip_slash path.

(** [os.path.join(dirname, name)] for a [name] that does not start with the
    separator. *)
Definition os_path_join (dirname name : str) : str :=
  match last dirname with
  | None => name
  | Some c => if c =? slash then dirname ++ name
              else dirname ++ slash :: name
  end.

(** [glob.iglob(path + "*.txt")], for a [path] that ends with the path
    separator and has no wildcard character of its own ([folder_path]
    below): [names] are the entries of the folder [glob_dirname path], files
    and folders alike, in the order the system lists them (none when there
    is no such folder).  [glob] leaves out the hidden entries, because the
    pattern ["*.txt"] does not start with a dot, keeps the entries that
    match it and joins them to the directory part.  For another [path] the
    pattern is another one ([glob] expands the wildcards of [path], and the
    end of a [path] without final separator belongs to the pattern of the
    names); that is not modelled. *)
Definition glob_txt (path : str) (names : list str) : list str :=
  map (os_path_join (glob_dirname path))
      (filter (fun name => ishidden name = false /\ fnmatch_txt name = true)
              names).

(** [files_all = sorted(glob.iglob(path + "*.txt"))] *)
Definition files_all (path : str) (names : list str) : list str :=
  merge_sort str_le (glob_txt path names).

(** [for filename in files_all]: [read filename] is the text that
    [open(filename, 'r', encoding='utf-8').read()] returns, or [None] when
    it raises.  The run stops with the first exception, of the reading or
    of a row assignment, and then returns no data frame.  The progress line
    that is printed for every file is left to [run_files] below. *)
Fixpoint load_files (fieldnames : list str) (read : str -> option str)
    (df : DataFrame) (files : list str) : option DataFrame :=
  match files with
  | [] => Some df
  | filename :: files' =>
      match read filename with
      | Some text =>
          match load_text fieldnames df text with
          | Some df' => load_files fieldnames read df' files'
          | None => None
          end
      | None => None
      end
  end.

Definition factiva_to_df (fieldnames : list str) (read : str -> option str)
    (path : str) (names : list str) : option DataFrame :=
  load_files fieldnames read (new_frame fieldnames) (files_all path names).

(** ** The progress lines and the count of articles *)

(** [filename[:-4]]: the string without its last four characters, empty
    when it has fewer. *)
Definition drop_last4 (s : str) : str := take (length s - 4) s.

(** [s.strip(chars)]: the leading and the trailing characters that occur in
    [chars] are removed. *)
Fixpoint lstrip_chars (chars s : str) : str :=
  match s with
  | c :: s' => if bool_decide (c ∈ chars) then lstrip_chars chars s' else s
  | [] => []
  end.

Definition rstrip_chars (chars s : str) : str :=
  rev (lstrip_chars chars (rev s)).

Definition strip_chars (chars s : str) : str :=
  rstrip_chars chars (lstrip_chars chars s).

(** [file_id = filename[:-4].strip(path)] *)
Definition file_id (path filename : str) : str :=
  strip_chars path (drop_last4 filename).



(** [len(df)], printed as the number of articles processed. *)
Definition len_df (df : DataFrame) : nat := length (rows df).

(** * Vocabulary of the properties *)

(** A match is never empty and lies within the string. *)
Definition matcher_ok (m : matcher) : Prop :=
  forall s n, m s = Some n -> (0 < n <= length s)%nat.

(** A field code: two or three capitals. *)
Definition field_code (code : str) : Prop :=
  (length code = 2%nat \/ length code = 3%nat) /\
  Forall (fun c => isupper c = true) code.

(** A tag boundary: one white space character, a field code, a line feed. *)
Definition is_tag (d : str) : Prop :=
  exists w code, d = w :: code ++ [nl] /\ isspace w = true /\ field_code code.

(** The pieces [re.split] returns for the tag pattern: a text, then tag
    boundaries and texts in turn.  No text starts with a tag boundary, and
    the last text has none left in it. *)
Inductive split_shape : list str -> Prop :=
  | shape_last t :
      search match_tag t = None -> split_shape [t]
  | shape_more t d rest :
      match_tag t = None -> is_tag d -> split_shape rest ->
      split_shape (t :: d :: rest).

#[global] Instance field_code_dec code : Decision (field_code code).
Proof. unfold field_code. apply _. Defined.

(** The articles of a file's text: its blocks, trimmed, that are not
    empty. *)
Definition articles (text : str) : list str :=
  filter (fun doc => doc <> [])
    (map strip (re_split (match_lit sep) false (drop_search_sum text))).

(** The rows of the articles [docs] in a frame with the columns [cols]. *)
Definition article_rows (fieldnames cols : list str) (docs : list str)
  : list (list (option str)) :=
  map (fun doc => row_of cols (parse_doc fieldnames doc)) docs.

(** A path [glob_txt] is written for: it ends with the separator and holds
    no wildcard character. *)
Definition folder_path (path : str) : Prop :=
  has_magic path = false /\ last path = Some slash.

(** Joins lines with line feeds, to write sample articles. *)
Fixpoint unlines (lines : list string) : str :=
  match lines with
  | [] => []
  | [l] => py l
  | l :: rest => py l ++ nl :: unlines rest
  end.

(** The key a piece of the split sets in the walk, if it sets one: [HD] or
    [SE] for the inline forms, its field code for a tag boundary, none for
    free text. *)
Definition assigned_key (piece : str) : option str :=
  if re_match (match_inline HD) piece then Some HD
  else if re_match (match_inline SE) piece then Some SE
  else if re_match match_tag piece then Some (strip piece)
  else None.

(** A piece that the walk takes as free text: it has neither inline form
    (and, coming from the split, it does not start with a tag boundary). *)
Definition free_text (piece : str) : Prop :=
  re_match (match_inline HD) piece = false /\
  re_match (match_inline SE) piece = false.

(** C3, case (b), as the specification states it: a tag line with the code
    is followed by a piece, and the walk records the code with that piece,
    trimmed. *)
Definition tag_line_recorded (fieldnames : list str) (code doc : str)
  : Prop :=
  forall pre d t post,
    re_split match_tag true doc = pre ++ d :: t :: post ->
    is_tag d -> strip d = code ->
    metadata_dict (walk fieldnames walk_init (pre ++ [d; t])) !! code
    = Some (strip t).



(** C10 as the specification states it: the piece after a tag boundary
    overwrites the value written for the tag. *)
Definition tag_text_overwrites (fieldnames : list str) (doc : str) : Prop :=
  forall pre d rest,
    re_split match_tag true doc = pre ++ d :: rest ->
    is_tag d -> strip d ∈ fieldnames ->
    exists t post,
      rest = t :: post /\
      metadata_dict (walk fieldnames walk_init (pre ++ [d; t])) !! strip d
      = Some (strip t).

(** The rows one file's text contributes to an empty frame (none when the
    row assignment raises). *)
Definition text_rows (fieldnames : list str) (text : str)
  : list (list (option str)) :=
  match load_text fieldnames (new_frame fieldnames) text with
  | Some df => rows df
  | None => []
  end.

(** C9 as the specification states it: every entry of the folder whose
    name has the [.txt] extension is among the files processed. *)
Definition lists_all_txt (path : str) (names : list str) : Prop :=
  forall name,
    name ∈ names -> ends_with (py ".txt") name = true ->
    os_path_join (glob_dirname path) name ∈ files_all path names.

(** ** Blocks in the generic layout *)

(** One field of a synthetic block: the white space character before its
    tag, the tag, and the text under it. *)
Record field := Field { lead : char; tag : str; text : str }.

(** The text [v] of a field, followed by the tag lines and texts of the
    fields [rest]. *)
Fixpoint layout_after (v : str) (rest : list field) : str :=
  match rest with
  | [] => v
  | g :: rest' => v ++ lead g :: tag g ++ nl :: layout_after (text g) rest'
  end.

(** The block: every tag on a line of its own, preceded by a white space
    character and followed by a line feed, then its text. *)
Definition layout (fields : list field) : str :=
  match fields with
  | [] => []
  | f :: rest => lead f :: tag f ++ nl :: layout_after (text f) rest
  end.

(** The mapping a list of fields stands for. *)
Definition record_of (fields : list field) : gmap str str :=
  list_to_map (map (fun f => (tag f, strip (text f))) fields).

(** The fields C1 speaks of: distinct configured field codes, each after a
    white space character, with a text that is not empty (even trimmed) and
    holds no tag boundary. *)
Definition generic_layout (fieldnames : list str) (fields : list field)
  : Prop :=
  NoDup (map tag fields) /\
  Forall (fun f => isspace (lead f) = true /\ field_code (tag f) /\
                   tag f ∈ fieldnames /\ strip (text f) <> [] /\
                   search match_tag (text f) = None) fields.

(** C1 as the specification states it: the block parses back to the
    mapping. *)
Definition roundtrip (fieldnames : list str) (fields : list field) : Prop :=
  parse_doc fieldnames (strip (layout fields)) = record_of fields.

(** No text, taken with the white space character that starts the next tag
    line, holds a tag boundary. *)
Fixpoint texts_clear (v : str) (rest : list field) : Prop :=
  match rest with
  | [] => search match_tag v = None
  | g :: rest' =>
      search match_tag (v ++ [lead g]) = None /\ texts_clear (text g) rest'
  end.

(** [layout_after] once the block is trimmed: the last text has lost its
    trailing white space. *)
Fixpoint layout_after_r (v : str) (rest : list field) : str :=
  match rest with
  | [] => rstrip v
  | g :: rest' => v ++ lead g :: tag g ++ nl :: layout_after_r (text g) rest'
  end.

(** A text as it stands in the trimmed block, given the fields after it. *)
Definition piece_text (rest : list field) (v : str) : str :=
  match rest with [] => rstrip v | _ :: _ => v end.

(** The pieces of the trimmed block after its first text. *)
Fixpoint pieces_of (rest : list field) : list str :=
  match rest with
  | [] => []
  | g :: rest' =>
      (lead g :: tag g ++ [nl]) :: piece_text rest' (text g) :: pieces_of rest'
  end.

(** ** Vocabulary of the further properties *)

(** [v] occurs in [s] as a run of consecutive characters. *)
Definition substring (v s : str) : Prop := exists a b, s = a ++ v ++ b.

(** [sep.join(blocks)] *)
Fixpoint join (sep : str) (blocks : list str) : str :=
  match blocks with
  | [] => []
  | [x] => x
  | x :: rest => x ++ sep ++ join sep rest
  end.

(** The blocks of a file's text that are articles: not empty once trimmed. *)
Definition count_articles (text : str) : nat :=
  length (filter (fun doc => doc <> [])
            (map strip (re_split (match_lit sep) false (drop_search_sum text)))).

(** * Properties *)

(** ** The embedding on sample inputs *)

Example strip_sample :
  strip ([32; 9] ++ py "HD Rates rise" ++ [32; nl; 12]) = py "HD Rates rise".
Proof. vm_compute. reflexivity. Qed.

(** Tag lines are kept between the texts; [PUB] is matched with its three
    letters, and a line of four capitals is no tag line. *)
Example re_split_sample :
  re_split match_tag true
    (unlines ["HD Rates rise"; " LA"; "English"; " PUBL"; " PUB"; "Reuters"]%string)
  = [unlines ["HD Rates rise"; ""]%string; unlines [" LA"; ""]%string;
     unlines ["English"; " PUBL"; ""]%string; unlines [" PUB"; ""]%string;
     py "Reuters"].
Proof. vm_compute. reflexivity. Qed.

(** The line feed that ends a tag line is consumed by the match, so a code
    on the very next line has no white space left before it. *)
Example re_split_adjacent :
  re_split match_tag true (nl :: unlines ["LA"; "CY"; "Norway"]%string)
  = [[]; nl :: unlines ["LA"; ""]%string; unlines ["CY"; "Norway"]%string].
Proof. vm_compute. reflexivity. Qed.

Example re_split_sep_sample :
  re_split (match_lit sep) false (py "one" ++ sep ++ sep ++ py "two")
  = [py "one"; []; py "two"].
Proof. vm_compute. reflexivity. Qed.

Example parse_doc_sample :
  parse_doc default_fieldnames
    (unlines ["SE Business"; " HD"; "Rates rise"; " BY"; "Jane Doe"; " LA";
              "English"; " LA"; "French"]%string)
  = <[py "SE" := py "Business"]>
      (<[py "HD" := py "Rates rise"]> (<[py "LA" := py "French"]> ∅)).
Proof. vm_compute. reflexivity. Qed.

(** Two articles and a search summary in one file: two rows, nothing of the
    summary in them. *)
Example load_text_sample :
  load_text default_fieldnames (new_frame default_fieldnames)
    (unlines ["HD First"; " LA"; "English"; ""]%string ++ sep ++
     unlines ["HD Second"; " LA"; "English"]%string ++ search_sum ++
     unlines ["Text"; " LA"; "Klingon"]%string)
  = Some (mkDataFrame default_fieldnames
      [row_of default_fieldnames
         (<[py "HD" := py "First"]> (<[py "LA" := py "English"]> ∅));
       row_of default_fieldnames
         (<[py "HD" := py "Second"]> (<[py "LA" := py "English"]> ∅))]).
Proof. vm_compute. reflexivity. Qed.

(** A frame without columns takes no row: the first article stops the
    run. *)
Example load_text_no_columns :
  load_text [] (new_frame []) (unlines ["HD First"; " LA"; "English"]%string)
  = None /\
  load_text [] (new_frame []) (sep ++ [nl]) = Some (new_frame []).
Proof. split; vm_compute; reflexivity. Qed.

(** A second separator at the end of the path is dropped from the file
    names, as [os.path.split] drops it from the directory part. *)
Example files_all_double_slash :
  files_all (py "rtfs//") [py "b.txt"; py "a.txt"]
  = [py "rtfs/a.txt"; py "rtfs/b.txt"] /\
  files_all (py "/") [py "a.txt"] = [py "/a.txt"].
Proof. split; vm_compute; reflexivity. Qed.

(** Capitals sort before small letters; hidden entries and other
    extensions are left out. *)
Example files_all_sample :
  files_all (py "rtfs/")
    [py "b.txt"; py "a.txt"; py "B.txt"; py "a.rtf"; py ".a.txt"; py "atxt"]
  = [py "rtfs/B.txt"; py "rtfs/a.txt"; py "rtfs/b.txt"].
Proof. vm_compute. reflexivity. Qed.

(** ** Characters and [strip] *)

Lemma isupper_not_space c : isupper c = true -> isspace c = false.
Proof.
  unfold isupper, isspace. rewrite andb_true_iff, !N.leb_le.
  intros [Hlo Hhi].
  rewrite !orb_false_iff, !andb_false_iff, !N.leb_gt, !N.eqb_neq. lia.
Qed.

Lemma is_nl_not_upper c : is_nl c = true -> isupper c = false.
Proof. unfold is_nl. intros ->%N.eqb_eq. reflexivity. Qed.

Lemma lstrip_suffix s :
  exists p, s = p ++ lstrip s /\ Forall (fun c => isspace c = true) p.
Proof.
  induction s as [|c s [p [IH1 IH2]]]; simpl.
  - exists []. split; [reflexivity | constructor].
  - destruct (isspace c) eqn:Hc.
    + exists (c :: p). split; [simpl; congruence | constructor; assumption].
    + exists []. split; [reflexivity | constructor].
Qed.

Lemma lstrip_head_not_space s : 
  match lstrip s with c :: _ => isspace c = false | [] => True end.
Proof.
  induction s as [|c s IH]; simpl; [exact I|].
  destruct (isspace c) eqn:Hc; [exact IH | exact Hc].
Qed.

Lemma lstrip_all_space s :
  Forall (fun c => isspace c = true) s -> lstrip s = [].
Proof. induction 1 as [|c s Hc _ IH]; simpl; [|rewrite Hc]; auto. Qed.

Lemma lstrip_not_space c s : isspace c = false -> lstrip (c :: s) = c :: s.
Proof. simpl. intros ->. reflexivity. Qed.

Lemma lstrip_idemp s : lstrip (lstrip s) = lstrip s.
Proof.
  pose proof (lstrip_head_not_space s) as H.
  destruct (lstrip s) as [|c t]; [reflexivity|].
  apply lstrip_not_space, H.
Qed.

Lemma lstrip_app_space p s :
  Forall (fun c => isspace c = true) p -> lstrip (p ++ s) = lstrip s.
Proof. induction 1 as [|c p Hc _ IH]; simpl; [|rewrite Hc]; auto. Qed.

Lemma lstrip_app_keep a b :
  lstrip a <> [] -> lstrip (a ++ b) = lstrip a ++ b.
Proof.
  induction a as [|c a IH]; simpl; [congruence|].
  destruct (isspace c); auto.
Qed.

Lemma rstrip_prefix s :
  exists q, s = rstrip s ++ q /\ Forall (fun c => isspace c = true) q.
Proof.
  unfold rstrip. destruct (lstrip_suffix (rev s)) as [p [Hp1 Hp2]].
  exists (rev p). split.
  - rewrite <- rev_app_distr, <- Hp1, rev_involutive. reflexivity.
  - apply Forall_forall. intros c Hc. 
    rewrite Forall_forall in Hp2. apply Hp2.
    apply list_elem_of_In. apply list_elem_of_In in Hc. 
    apply in_rev. exact Hc.
Qed.

Lemma rstrip_all_space s :
  Forall (fun c => isspace c = true) s -> rstrip s = [].
Proof.
  intros H. unfold rstrip. rewrite lstrip_all_space; [reflexivity|].
  apply Forall_forall. intros c Hc. rewrite Forall_forall in H. apply H.
  apply list_elem_of_In. apply list_elem_of_In in Hc. apply in_rev. exact Hc.
Qed.

Lemma strip_all_space s :
  Forall (fun c => isspace c = true) s -> strip s = [].
Proof.
  intros H. unfold strip. apply rstrip_all_space.
  destruct (lstrip_suffix s) as [p [Hp _]]. rewrite Hp in H.
  apply Forall_app in H. tauto.
Qed.

(** ** Matching, searching and splitting *)

Lemma starts_with_spec pat s :
  starts_with pat s = true <-> exists r, s = pat ++ r.
Proof.
  revert s. induction pat as [|p pat IH]; intros s; simpl.
  - split; [exists s; reflexivity | reflexivity].
  - destruct s as [|c s].
    + split; [discriminate | intros [r Hr]; discriminate].
    + rewrite andb_true_iff, N.eqb_eq, IH. split.
      * intros [-> [r ->]]. exists r. reflexivity.
      * intros [r Hr]. injection Hr as -> ->. eauto.
Qed.

Lemma match_lit_spec pat s n :
  match_lit pat s = Some n <-> n = length pat /\ exists r, s = pat ++ r.
Proof.
  unfold match_lit. rewrite <- starts_with_spec.
  destruct (starts_with pat s); split; try intros [? ?]; try intros [= <-];
    try discriminate; auto.
Qed.

Lemma match_lit_ok pat : pat <> [] -> matcher_ok (match_lit pat).
Proof.
  intros Hpat s n [-> [r ->]]%match_lit_spec. rewrite length_app.
  destruct pat; [congruence | simpl; lia].
Qed.

Lemma match_tag_ok : matcher_ok match_tag.
Proof.
  intros s n. unfold match_tag.
  destruct s as [|w [|a [|b r]]]; try discriminate.
  destruct (isspace w && isupper a && isupper b); [|discriminate].
  destruct r as [|c [|d r]]; simpl;
    repeat match goal with |- context [if ?x then _ else _] => destruct x end;
    intros [= <-]; lia.
Qed.

Lemma search_spec m s a d b :
  search m s = Some (a, d, b) ->
  s = a ++ d ++ b /\
  (exists n, m (d ++ b) = Some n /\ d = take n (d ++ b) /\
             b = drop n (d ++ b)) /\
  forall i, (i < length a)%nat -> m (drop i s) = None.
Proof.
  revert a. induction s as [|c s IH]; intros a; simpl.
  - destruct (m []) as [n|] eqn:Hm; [|discriminate].
    intros [= <- <- <-]. rewrite take_nil, drop_nil. simpl.
    split; [reflexivity|]. split; [|intros i Hi; lia].
    exists n. rewrite take_nil, drop_nil. auto.
  - destruct (m (c :: s)) as [n|] eqn:Hm.
    + intros [= <- <- <-]. simpl. rewrite take_drop.
      split; [reflexivity|]. split; [|intros i Hi; lia].
      exists n. auto.
    + destruct (search m s) as [[[a' d'] b']|] eqn:Hs; [|discriminate].
      intros [= <- <- <-]. destruct (IH a' eq_refl) as (Heq & Hn & Hmin).
      split; [simpl; congruence|]. split; [exact Hn|].
      intros [|i] Hi; simpl in *; [exact Hm | apply Hmin; lia].
Qed.

Lemma search_None m s : search m s = None -> forall i, m (drop i s) = None.
Proof.
  induction s as [|c s IH]; simpl.
  - destruct (m []) eqn:Hm; [discriminate|]. intros _ i.
    rewrite drop_nil. exact Hm.
  - destruct (m (c :: s)) eqn:Hm; [discriminate|].
    destruct (search m s) as [[[a d] b]|]; [discriminate|].
    intros _ [|i]; simpl; auto.
Qed.

Lemma search_None_intro m s :
  (forall i, m (drop i s) = None) -> search m s = None.
Proof.
  induction s as [|c s IH]; intros H; pose proof (H 0%nat) as H0;
    simpl in *; rewrite H0; [reflexivity|].
  rewrite IH; [reflexivity|]. intros i. exact (H (S i)).
Qed.

Lemma search_intro m a r n :
  (forall i, (i < length a)%nat -> m (drop i (a ++ r)) = None) ->
  m r = Some n ->
  search m (a ++ r) = Some (a, take n r, drop n r).
Proof.
  intros Hmin Hr. induction a as [|c a IH]; simpl.
  - destruct r; simpl in *; rewrite Hr; reflexivity.
  - pose proof (Hmin 0%nat) as H0. simpl in H0. rewrite H0 by lia.
    rewrite IH; [reflexivity|].
    intros i Hi. apply (Hmin (S i)). simpl. lia.
Qed.

Lemma search_shorter m s a d b :
  matcher_ok m -> search m s = Some (a, d, b) -> (length b < length s)%nat.
Proof.
  intros Hm (Heq & (n & Hn & Hd & Hb) & _)%search_spec.
  apply Hm in Hn. rewrite Heq, !length_app.
  assert (length d = n) by (rewrite Hd, length_take; lia). lia.
Qed.

Lemma search_nil m : matcher_ok m -> search m [] = None.
Proof.
  intros Hm. simpl. destruct (m []) as [n|] eqn:Hn; [|reflexivity].
  apply Hm in Hn. simpl in Hn. lia.
Qed.

Lemma split_fuel_enough m capture n n' s :
  matcher_ok m -> (length s <= n)%nat -> (length s <= n')%nat ->
  split_fuel m capture n s = split_fuel m capture n' s.
Proof.
  intros Hm. revert n' s. induction n as [|n IH]; intros [|n'] s Hn Hn';
    simpl; try reflexivity.
  - destruct s; [|simpl in Hn; lia]. rewrite search_nil; auto.
  - destruct s; [|simpl in Hn'; lia]. rewrite search_nil; auto.
  - destruct (search m s) as [[[a d] b]|] eqn:Hs; [|reflexivity].
    pose proof (search_shorter _ _ _ _ _ Hm Hs).
    rewrite (IH n' b) by lia. reflexivity.
Qed.

(** The fuel never runs out: [re_split] satisfies the recursive equation of
    [re.split]. *)
Lemma re_split_eq m capture s :
  matcher_ok m ->
  re_split m capture s =
    match search m s with
    | Some (a, d, b) =>
        a :: (if capture then [d] else []) ++ re_split m capture b
    | None => [s]
    end.
Proof.
  intros Hm. unfold re_split. destruct s as [|c s].
  - simpl split_fuel. rewrite search_nil; auto.
  - change (length (c :: s)) with (S (length s)).
    cbn [split_fuel].
    destruct (search m (c :: s)) as [[[a d] b]|] eqn:Hs; [|reflexivity].
    pose proof (search_shorter _ _ _ _ _ Hm Hs) as Hlt. simpl in Hlt.
    rewrite (split_fuel_enough m capture (length s) (length b) b)
      by (auto; lia).
    reflexivity.
Qed.

(** With the matched texts kept, the pieces make up the string. *)
Lemma re_split_concat m s :
  matcher_ok m -> concat (re_split m true s) = s.
Proof.
  intros Hm. remember (length s) as n eqn:Hn. revert s Hn.
  induction n as [n IH] using lt_wf_ind. intros s ->.
  rewrite re_split_eq by exact Hm.
  destruct (search m s) as [[[a d] b]|] eqn:Hs; [|apply app_nil_r].
  pose proof (search_shorter _ _ _ _ _ Hm Hs) as Hlt.
  destruct (search_spec _ _ _ _ _ Hs) as (Heq & _ & _).
  simpl. rewrite (IH _ Hlt b eq_refl). symmetry. exact Heq.
Qed.

Lemma re_split_not_nil m capture s : re_split m capture s <> [].
Proof.
  unfold re_split. destruct (length s); simpl; [discriminate|].
  destruct (search m s) as [[[a d] b]|]; discriminate.
Qed.

Lemma re_split_no_match m capture s :
  matcher_ok m -> search m s = None -> re_split m capture s = [s].
Proof. intros Hm Hs. rewrite re_split_eq, Hs; auto. Qed.

(** ** Field codes and tag boundaries *)

Lemma match_tag_inv s n :
  match_tag s = Some n ->
  exists w code rest,
    s = w :: code ++ nl :: rest /\ isspace w = true /\ field_code code /\
    n = S (S (length code)).
Proof.
  unfold match_tag. destruct s as [|w [|a [|b r]]]; try discriminate.
  destruct (isspace w) eqn:Hw; [|discriminate].
  destruct (isupper a) eqn:Ha; [|discriminate].
  destruct (isupper b) eqn:Hb; [|discriminate]. simpl.
  assert (H2 : forall c rest, is_nl c = true -> r = c :: rest ->
            exists w' code rest',
              w :: a :: b :: r = w' :: code ++ nl :: rest' /\
              isspace w' = true /\ field_code code /\
              4%nat = S (S (length code))).
  { intros c rest Hc ->. apply N.eqb_eq in Hc as ->.
    exists w, [a; b], rest. repeat split; auto. }
  destruct r as [|c [|d r]].
  - discriminate.
  - destruct (is_nl c) eqn:Hc; [|discriminate]. intros [= <-]. eauto.
  - destruct (isupper c) eqn:Hc; simpl.
    + destruct (is_nl d) eqn:Hd.
      * intros [= <-]. apply N.eqb_eq in Hd as ->.
        exists w, [a; b; c], r. repeat split; auto.
      * destruct (is_nl c) eqn:Hc'; [|discriminate].
        apply is_nl_not_upper in Hc'. congruence.
    + destruct (is_nl c) eqn:Hc'; [|discriminate]. intros [= <-]. eauto.
Qed.

Lemma match_tag_intro w code rest :
  isspace w = true -> field_code code ->
  match_tag (w :: code ++ nl :: rest) = Some (S (S (length code))).
Proof.
  intros Hw [Hlen Hup]. unfold match_tag.
  destruct code as [|a [|b [|c [|e code]]]]; simpl in Hlen;
    try (exfalso; lia).
  - inversion Hup as [|? ? Ha Hup']; subst.
    inversion Hup' as [|? ? Hb _]; subst.
    simpl. rewrite Hw, Ha, Hb. simpl.
    destruct rest; reflexivity.
  - inversion Hup as [|? ? Ha Hup']; subst.
    inversion Hup' as [|? ? Hb Hup'']; subst.
    inversion Hup'' as [|? ? Hc _]; subst.
    simpl. rewrite Hw, Ha, Hb, Hc. reflexivity.
Qed.

(** A match of the tag pattern only reads the characters it matches. *)
Lemma match_tag_app s n x : match_tag s = Some n -> match_tag (s ++ x) = Some n.
Proof.
  intros (w & code & rest & -> & Hw & Hcode & ->)%match_tag_inv.
  change ((w :: code ++ nl :: rest) ++ x) with (w :: (code ++ nl :: rest) ++ x).
  rewrite <- app_assoc. simpl. apply match_tag_intro; assumption.
Qed.

Lemma match_tag_is_tag d b n :
  match_tag (d ++ b) = Some n -> d = take n (d ++ b) -> is_tag d.
Proof.
  intros (w & code & rest & Heq & Hw & Hcode & ->)%match_tag_inv Hd.
  exists w, code. rewrite Heq in Hd. rewrite Hd. split; [|auto].
  simpl. f_equal.
  change (nl :: rest) with ([nl] ++ rest). rewrite app_assoc.
  rewrite take_app_length'; [reflexivity|].
  rewrite length_app. simpl. lia.
Qed.

Lemma is_tag_match d : is_tag d -> match_tag d = Some (length d).
Proof.
  intros (w & code & -> & Hw & Hcode).
  rewrite (match_tag_intro w code [] Hw Hcode). simpl.
  rewrite length_app. simpl. f_equal. lia.
Qed.

Lemma match_is_tag d : match_tag d = Some (length d) -> is_tag d.
Proof.
  intros H. apply (match_tag_is_tag d [] (length d)).
  - rewrite app_nil_r. exact H.
  - rewrite app_nil_r, firstn_all. reflexivity.
Qed.

Lemma field_code_head code :
  field_code code -> exists c rest, code = c :: rest /\ isupper c = true.
Proof.
  intros [Hlen Hup]. destruct code as [|c rest]; [simpl in Hlen; lia|].
  inversion Hup; subst. eauto.
Qed.

Lemma field_code_not_nil code : field_code code -> code <> [].
Proof. intros (c & rest & -> & _)%field_code_head. discriminate. Qed.

Lemma field_code_no_space code :
  field_code code -> Forall (fun c => isspace c = false) code.
Proof.
  intros [_ Hup]. eapply Forall_impl; [exact Hup|].
  intros c Hc. apply isupper_not_space, Hc.
Qed.

Lemma lstrip_no_space s :
  Forall (fun c => isspace c = false) s -> lstrip s = s.
Proof. destruct 1 as [|c s Hc _]; simpl; [|rewrite Hc]; reflexivity. Qed.

Lemma rstrip_no_space s :
  Forall (fun c => isspace c = false) s -> rstrip s = s.
Proof.
  intros H. unfold rstrip. rewrite lstrip_no_space, rev_involutive; auto.
  apply Forall_forall. intros c Hc. rewrite Forall_forall in H. apply H.
  apply list_elem_of_In. apply list_elem_of_In in Hc. apply in_rev. exact Hc.
Qed.

(** [rstrip] only looks at the end of the string once that end holds a
    character that is not white space. *)
Lemma rstrip_app a b : rstrip b <> [] -> rstrip (a ++ b) = a ++ rstrip b.
Proof.
  unfold rstrip. intros Hb. rewrite rev_app_distr.
  rewrite lstrip_app_keep.
  - rewrite rev_app_distr, rev_involutive. reflexivity.
  - intros H. apply Hb. rewrite H. reflexivity.
Qed.

Lemma rstrip_snoc_space s w : isspace w = true -> rstrip (s ++ [w]) = rstrip s.
Proof.
  intros Hw. unfold rstrip. rewrite rev_app_distr. simpl. rewrite Hw.
  reflexivity.
Qed.

(** Stripping a tag boundary leaves its field code. *)
Lemma strip_tag w code :
  isspace w = true -> field_code code -> strip (w :: code ++ [nl]) = code.
Proof.
  intros Hw Hcode. unfold strip. simpl. rewrite Hw.
  pose proof (field_code_no_space _ Hcode) as Hns.
  pose proof (field_code_not_nil _ Hcode) as Hnil.
  rewrite lstrip_app_keep by (rewrite lstrip_no_space; assumption).
  rewrite lstrip_no_space by assumption.
  rewrite rstrip_snoc_space by reflexivity.
  apply rstrip_no_space, Hns.
Qed.

Lemma re_split_shape s : split_shape (re_split match_tag true s).
Proof.
  remember (length s) as n eqn:Hn. revert s Hn.
  induction n as [n IH] using lt_wf_ind. intros s ->.
  rewrite re_split_eq by exact match_tag_ok.
  destruct (search match_tag s) as [[[a d] b]|] eqn:Hs.
  - pose proof (search_shorter _ _ _ _ _ match_tag_ok Hs) as Hlt.
    destruct (search_spec _ _ _ _ _ Hs) as (Heq & (k & Hk & Hd & _) & Hmin).
    simpl. constructor.
    + destruct a as [|c a]; [reflexivity|].
      destruct (match_tag (c :: a)) as [j|] eqn:Hj; [|reflexivity].
      apply (match_tag_app _ _ (d ++ b)) in Hj.
      rewrite <- Heq in Hj. pose proof (Hmin 0%nat) as H0.
      rewrite drop_0 in H0. rewrite H0 in Hj by (simpl; lia). discriminate.
    + eapply match_tag_is_tag; eassumption.
    + eapply IH; [exact Hlt | reflexivity].
  - constructor. exact Hs.
Qed.

Lemma search_None_head m s : search m s = None -> m s = None.
Proof. intros H. exact (search_None m s H 0%nat). Qed.

(** In such a sequence a tag boundary is followed by a text, and the text
    by the end or by another tag boundary. *)
Lemma shape_after_tag pre d rest :
  split_shape (pre ++ d :: rest) -> is_tag d ->
  exists t post,
    rest = t :: post /\ match_tag t = None /\ split_shape (t :: post).
Proof.
  intros Hshape Hd. remember (pre ++ d :: rest) as l eqn:Hl.
  revert pre Hl. induction Hshape as [t Ht|t d0 rest0 Ht Hd0 Hrest IH];
    intros pre Hl.
  - destruct pre as [|x [|y pre]]; try discriminate.
    injection Hl as -> <-. apply search_None_head in Ht.
    rewrite (is_tag_match _ Hd) in Ht. discriminate.
  - destruct pre as [|x [|y pre]].
    + injection Hl as -> _. rewrite (is_tag_match _ Hd) in Ht. discriminate.
    + injection Hl as _ -> ->.
      inversion Hrest as [t' Ht'|t' d' rest' Ht' Hd' Hrest']; subst.
      * exists t', []. repeat split; auto using search_None_head.
      * exists t', (d' :: rest'). repeat split; auto.
    + injection Hl as _ _ ->. eapply IH. reflexivity.
Qed.

Lemma shape_tail_cases t post :
  split_shape (t :: post) ->
  post = [] \/ exists d post', post = d :: post' /\ is_tag d /\
                               split_shape post'.
Proof. inversion 1; subst; [left; reflexivity | right; eauto]. Qed.

(** ** One step of the walk *)

Lemma HD_eq : HD = [72; 68].
Proof. reflexivity. Qed.

Lemma SE_eq : SE = [83; 69].
Proof. reflexivity. Qed.

Lemma inline_spec code s :
  re_match (match_inline code) s = true <->
  exists w r, s = code ++ w :: r /\ isspace w = true.
Proof.
  unfold re_match, match_inline.
  destruct (starts_with code s) eqn:Hs.
  - apply starts_with_spec in Hs as [r ->].
    rewrite drop_app_length. destruct r as [|w r].
    + split; [discriminate|]. intros (w & r & Heq & _).
      apply (f_equal length) in Heq. rewrite !length_app in Heq.
      simpl in Heq. lia.
    + destruct (isspace w) eqn:Hw.
      * split; [eauto|reflexivity].
      * split; [discriminate|]. intros (w' & r' & Heq & Hw').
        apply app_inv_head in Heq. congruence.
  - split; [discriminate|]. intros (w & r & Heq & _).
    assert (starts_with code s = true) by (apply starts_with_spec; eauto).
    congruence.
Qed.

(** The slice [split[3:]] taken after an inline match is in range: it
    removes the two letters and the white space character. *)
Lemma inline_slice code s :
  length code = 2%nat -> re_match (match_inline code) s = true ->
  (3 <= length s)%nat /\
  exists w, isspace w = true /\ s = code ++ w :: drop 3 s.
Proof.
  intros Hlen (w & r & -> & Hw)%inline_spec. split.
  - rewrite length_app. simpl. lia.
  - exists w. split; [exact Hw|].
    change (w :: r) with ([w] ++ r) at 2.
    rewrite app_assoc, drop_app_length'; [reflexivity|].
    rewrite length_app. simpl. lia.
Qed.

Lemma tag_not_inline code d :
  is_tag d -> (exists c r, code = c :: r /\ isspace c = false) ->
  re_match (match_inline code) d = false.
Proof.
  intros (w & tag & -> & Hw & _) (c & r & -> & Hc).
  unfold re_match, match_inline. simpl.
  destruct (N.eqb_spec c w) as [->|_]; [congruence | reflexivity].
Qed.

Lemma tag_not_HD d : is_tag d -> re_match (match_inline HD) d = false.
Proof. intros H. apply tag_not_inline; [exact H | rewrite HD_eq; eauto]. Qed.

Lemma tag_not_SE d : is_tag d -> re_match (match_inline SE) d = false.
Proof. intros H. apply tag_not_inline; [exact H | rewrite SE_eq; eauto]. Qed.

Section Walk.

Variable fieldnames : list str.

Lemma walk_step_HD st s :
  re_match (match_inline HD) s = true ->
  walk_step fieldnames st s =
    WalkState HD (strip (drop 3 s))
      (store fieldnames HD (strip (drop 3 s)) (metadata_dict st)).
Proof. unfold walk_step. intros ->. reflexivity. Qed.

Lemma walk_step_SE st s :
  re_match (match_inline HD) s = false ->
  re_match (match_inline SE) s = true ->
  walk_step fieldnames st s =
    WalkState SE (strip (drop 3 s))
      (store fieldnames SE (strip (drop 3 s)) (metadata_dict st)).
Proof. unfold walk_step. intros -> ->. reflexivity. Qed.

Lemma walk_step_tag st d :
  is_tag d ->
  walk_step fieldnames st d =
    WalkState (strip d) (value st)
      (store fieldnames (strip d) (value st) (metadata_dict st)).
Proof.
  intros Hd. unfold walk_step.
  rewrite (tag_not_HD _ Hd), (tag_not_SE _ Hd).
  unfold re_match at 1. rewrite (is_tag_match _ Hd). reflexivity.
Qed.

Lemma walk_step_text st t :
  re_match (match_inline HD) t = false ->
  re_match (match_inline SE) t = false ->
  match_tag t = None ->
  walk_step fieldnames st t =
    WalkState (key st) (strip t)
      (store fieldnames (key st) (strip t) (metadata_dict st)).
Proof.
  unfold walk_step. intros -> -> Ht. unfold re_match. rewrite Ht.
  reflexivity.
Qed.

Lemma walk_app st l1 l2 :
  walk fieldnames st (l1 ++ l2) = walk fieldnames (walk fieldnames st l1) l2.
Proof. apply foldl_app. Qed.

Lemma walk_cons st s l :
  walk fieldnames st (s :: l) = walk fieldnames (walk_step fieldnames st s) l.
Proof. reflexivity. Qed.

(** Only configured field names are ever written. *)
Lemma store_keys k v d x :
  is_Some (store fieldnames k v d !! x) -> x ∈ fieldnames \/ is_Some (d !! x).
Proof.
  unfold store. case_bool_decide as Hk; [|auto].
  destruct (decide (k = x)) as [<-|Hne]; [auto|].
  rewrite lookup_insert_ne by exact Hne. auto.
Qed.

Lemma walk_step_keys st s x :
  is_Some (metadata_dict (walk_step fieldnames st s) !! x) ->
  x ∈ fieldnames \/ is_Some (metadata_dict st !! x).
Proof.
  unfold walk_step.
  destruct (re_match (match_inline HD) s); [apply store_keys|].
  destruct (re_match (match_inline SE) s); [apply store_keys|].
  destruct (re_match match_tag s); apply store_keys.
Qed.

Lemma walk_keys st l x :
  is_Some (metadata_dict (walk fieldnames st l) !! x) ->
  x ∈ fieldnames \/ is_Some (metadata_dict st !! x).
Proof.
  revert st. induction l as [|s l IH]; intros st; simpl; [auto|].
  intros [H|H]%IH; [auto|]. apply walk_step_keys in H. exact H.
Qed.

Lemma parse_doc_keys doc x :
  is_Some (parse_doc fieldnames doc !! x) -> x ∈ fieldnames.
Proof.
  unfold parse_doc. intros [H|H]%walk_keys; [exact H|].
  simpl in H. rewrite lookup_empty in H. destruct H; discriminate.
Qed.

End Walk.

Lemma default_fieldnames_codes : Forall field_code default_fieldnames.
Proof. apply (bool_decide_unpack _). vm_compute. reflexivity. Qed.

Lemma field_codes_not_nil fieldnames :
  Forall field_code fieldnames -> [] ∉ fieldnames.
Proof.
  intros H Hin. rewrite Forall_forall in H. apply H in Hin.
  apply field_code_not_nil in Hin. congruence.
Qed.

(** ** The rows of the data frame *)

Lemma loc_append_cols df d :
  columns df <> [] ->
  loc_append df d
  = Some (mkDataFrame (columns df) (rows df ++ [row_of (columns df) d])).
Proof. unfold loc_append. destruct (columns df); [congruence | reflexivity]. Qed.

Lemma loc_append_no_cols df d : columns df = [] -> loc_append df d = None.
Proof. unfold loc_append. intros ->. reflexivity. Qed.

Lemma load_docs_spec fieldnames docs df :
  load_docs fieldnames df docs =
  match filter (fun doc => doc <> []) (map strip docs), columns df with
  | [], _ => Some df
  | _ :: _, [] => None
  | (_ :: _) as arts, (_ :: _) as cols =>
      Some (mkDataFrame cols (rows df ++ article_rows fieldnames cols arts))
  end.
Proof.
  revert df. induction docs as [|doc docs IH]; intros df; [reflexivity|].
  cbn [load_docs map]. unfold process_doc.
  destruct (strip doc) as [|c s] eqn:Hs.
  - rewrite filter_cons_False by auto. apply IH.
  - rewrite filter_cons_True by discriminate.
    destruct (columns df) as [|x cols] eqn:Hc.
    + rewrite loc_append_no_cols by exact Hc. reflexivity.
    + rewrite loc_append_cols by congruence. rewrite IH, Hc. simpl.
      destruct (filter _ (map strip docs)) as [|a arts]; [reflexivity|].
      simpl. rewrite <- app_assoc. reflexivity.
Qed.

Lemma load_text_spec fieldnames df text :
  load_text fieldnames df text =
  match articles text, columns df with
  | [], _ => Some df
  | _ :: _, [] => None
  | (_ :: _) as arts, (_ :: _) as cols =>
      Some (mkDataFrame cols (rows df ++ article_rows fieldnames cols arts))
  end.
Proof. unfold load_text. apply load_docs_spec. Qed.

Lemma load_text_Some fieldnames df text df' :
  load_text fieldnames df text = Some df' ->
  columns df' = columns df /\
  rows df' = rows df ++ article_rows fieldnames (columns df) (articles text).
Proof.
  rewrite load_text_spec.
  destruct (articles text) as [|a arts], (columns df) as [|x cols] eqn:Hc;
    intros [= <-]; simpl; rewrite ?app_nil_r; auto.
Qed.

Lemma load_text_cols fieldnames df text :
  columns df <> [] ->
  load_text fieldnames df text
  = Some (mkDataFrame (columns df)
            (rows df ++ article_rows fieldnames (columns df) (articles text))).
Proof.
  intros Hc. rewrite load_text_spec.
  destruct (articles text) as [|a arts], (columns df) as [|x cols] eqn:Hx;
    try congruence; try reflexivity.
  simpl. rewrite app_nil_r. destruct df; simpl in *; congruence.
Qed.

Lemma load_text_no_articles fieldnames df text :
  articles text = [] -> load_text fieldnames df text = Some df.
Proof. intros H. rewrite load_text_spec, H. reflexivity. Qed.

Lemma load_text_None fieldnames df text :
  load_text fieldnames df text = None <->
  columns df = [] /\ articles text <> [].
Proof.
  rewrite load_text_spec.
  destruct (articles text) as [|a arts], (columns df) as [|x cols];
    split; try discriminate; try (intros [? ?]; congruence); auto.
Qed.

Lemma text_rows_eq fieldnames text :
  fieldnames <> [] \/ articles text = [] ->
  text_rows fieldnames text
  = article_rows fieldnames fieldnames (articles text).
Proof.
  unfold text_rows. intros [H|H].
  - rewrite load_text_cols by exact H. reflexivity.
  - rewrite load_text_no_articles by exact H. rewrite H. reflexivity.
Qed.

Lemma load_files_rows fieldnames read files df df' :
  load_files fieldnames read df files = Some df' ->
  exists texts,
    Forall2 (fun file text => read file = Some text) files texts /\
    columns df' = columns df /\
    rows df'
    = rows df ++
      article_rows fieldnames (columns df) (concat (map articles texts)) /\
    (columns df = [] -> Forall (fun text => articles text = []) texts).
Proof.
  revert df. induction files as [|f files IH]; intros df; simpl.
  - intros [= <-]. exists []. repeat split; try constructor.
    simpl. rewrite app_nil_r. reflexivity.
  - destruct (read f) as [text|] eqn:Hread; [|discriminate].
    destruct (load_text fieldnames df text) as [df1|] eqn:Hload;
      [|discriminate].
    intros (texts & Hall & Hcols & Hrows & Hnil)%IH.
    pose proof (load_text_Some _ _ _ _ Hload) as [Hc1 Hr1].
    exists (text :: texts). split; [constructor; assumption|].
    split; [congruence|]. split.
    + rewrite Hrows, Hr1, Hc1. simpl. unfold article_rows.
      rewrite map_app, app_assoc. reflexivity.
    + intros Hc. constructor; [|apply Hnil; congruence].
      destruct (articles text) eqn:Ha; [reflexivity|].
      assert (Hn : load_text fieldnames df text = None)
        by (apply load_text_None; split; congruence).
      congruence.
Qed.

Lemma load_files_total fieldnames read files df :
  columns df <> [] ->
  Forall (fun file => is_Some (read file)) files ->
  is_Some (load_files fieldnames read df files).
Proof.
  intros Hc Hall. revert df Hc.
  induction Hall as [|f files [text Hf] _ IH]; intros df Hc; simpl; [eauto|].
  rewrite Hf, load_text_cols by exact Hc. apply IH. exact Hc.
Qed.

Lemma row_of_lookup (cols : list str) (d : gmap str str) (i : nat)
    (code : str) :
  cols !! i = Some code -> row_of cols d !! i = Some (d !! code).
Proof.
  intros Hi. unfold row_of. change (map ?f ?l) with (f <$> l).
  rewrite list_lookup_fmap, Hi. reflexivity.
Qed.

(** C4: whenever a run returns a data frame, its columns are the configured
    field names in their configured order; the dictionary of an article has
    values only for configured names; and the rows are those of the
    articles of the files read, one row per article in order, where the row
    of an article has one cell per configured name and the cell of a name
    is the value the dictionary of that article has for it, missing when
    the article has none. *)
Theorem C4_fixed_schema fieldnames read path names df :
  factiva_to_df fieldnames read path names = Some df ->
  columns df = fieldnames /\
  (forall doc code,
      is_Some (parse_doc fieldnames doc !! code) -> code ∈ fieldnames) /\
  exists texts,
    Forall2 (fun file text => read file = Some text)
            (files_all path names) texts /\
    Forall2 (fun doc row =>
               length row = length fieldnames /\
               (forall i code,
                   fieldnames !! i = Some code ->
                   row !! i = Some (parse_doc fieldnames doc !! code)) /\
               (forall i code,
                   fieldnames !! i = Some code ->
                   parse_doc fieldnames doc !! code = None ->
                   row !! i = Some None))
            (concat (map articles texts)) (rows df).
Proof.
  intros Hrun. unfold factiva_to_df in Hrun.
  apply load_files_rows in Hrun as (texts & Hread & Hc & Hr & _).
  simpl in Hc, Hr. split; [exact Hc|].
  split; [intros doc code; apply parse_doc_keys|].
  exists texts. split; [exact Hread|]. rewrite Hr. unfold article_rows.
  change (map ?f ?l) with (f <$> l). apply Forall2_fmap_r, Forall_Forall2_diag.
  apply Forall_forall. intros doc _.
  split; [apply length_map|].
  split; [intros i code; apply row_of_lookup|].
  intros i code Hi Hnone.
  rewrite (row_of_lookup _ _ _ _ Hi), Hnone. reflexivity.
Qed.

Lemma C4_fixed_schema_witness :
  let read := fun _ : str =>
    Some (unlines ["HD Title"; " LA"; "English"]%string) in
  let df := mkDataFrame default_fieldnames
    [row_of default_fieldnames
       (<[py "HD" := py "Title"]> (<[py "LA" := py "English"]> ∅))] in
  factiva_to_df default_fieldnames read (py "rtfs/") [py "a.txt"] = Some df /\
  columns df = default_fieldnames.
Proof.
  intros read df.
  assert (H : factiva_to_df default_fieldnames read (py "rtfs/") [py "a.txt"]
              = Some df) by (vm_compute; reflexivity).
  split; [exact H|].
  exact (proj1 (C4_fixed_schema default_fieldnames read (py "rtfs/")
                  [py "a.txt"] df H)).
Defined.

(** ** Blocks without tag boundary *)

Lemma search_tag_None_app_l p s :
  search match_tag (p ++ s) = None -> search match_tag s = None.
Proof.
  intros H. apply search_None_intro. intros i.
  rewrite <- (drop_app_add p s i). apply search_None, H.
Qed.

Lemma search_tag_None_app_r s q :
  search match_tag (s ++ q) = None -> search match_tag s = None.
Proof.
  intros H. apply search_None_intro. intros i.
  destruct (match_tag (drop i s)) as [n|] eqn:Hn; [|reflexivity].
  destruct (le_lt_dec i (length s)) as [Hle|Hgt].
  - apply (match_tag_app _ _ q) in Hn.
    rewrite <- drop_app_le in Hn by exact Hle.
    rewrite (search_None _ _ H i) in Hn. discriminate.
  - rewrite drop_ge in Hn by lia. discriminate.
Qed.

Lemma search_tag_None_strip s :
  search match_tag s = None -> search match_tag (strip s) = None.
Proof.
  intros H. unfold strip.
  destruct (lstrip_suffix s) as (p & Hp & _).
  destruct (rstrip_prefix (lstrip s)) as (q & Hq & _).
  rewrite Hp in H. apply search_tag_None_app_l in H.
  rewrite Hq in H. apply search_tag_None_app_r in H. exact H.
Qed.

(** C5: for every string given as an article block the loop body is
    defined.  The split runs to the end of the trimmed block: its pieces
    make up the trimmed block and are a text followed by tag boundaries and
    texts in turn, no text beginning with a tag boundary and the last text
    holding none.  On both inline branches of the walk the piece has at
    least three characters, so the slice after the three character prefix
    is in range.  The walk ends with a dictionary, whose keys are
    configured names, and it is assigned as a row unless the trimmed block
    is empty; the assignment is made whenever the frame has a column. *)
Theorem C5_parser_total fieldnames df block :
  concat (re_split match_tag true (strip block)) = strip block /\
  split_shape (re_split match_tag true (strip block)) /\
  (forall piece,
      (re_match (match_inline HD) piece = true ->
       (3 <= length piece)%nat /\
       exists w, isspace w = true /\ piece = HD ++ w :: drop 3 piece) /\
      (re_match (match_inline SE) piece = true ->
       (3 <= length piece)%nat /\
       exists w, isspace w = true /\ piece = SE ++ w :: drop 3 piece)) /\
  exists record,
    parse_doc fieldnames (strip block) = record /\
    (forall code, is_Some (record !! code) -> code ∈ fieldnames) /\
    (strip block <> [] ->
     process_doc fieldnames df block = loc_append df record) /\
    (strip block = [] -> process_doc fieldnames df block = Some df) /\
    (columns df <> [] -> is_Some (process_doc fieldnames df block)).
Proof.
  split; [apply re_split_concat, match_tag_ok|].
  split; [apply re_split_shape|]. split.
  - intros piece. split; apply inline_slice; reflexivity.
  - exists (parse_doc fieldnames (strip block)).
    split; [reflexivity|]. split; [apply parse_doc_keys|].
    unfold process_doc. destruct (strip block) as [|c s].
    + repeat split; eauto; congruence.
    + repeat split; try congruence.
      intros Hc. rewrite loc_append_cols by exact Hc. eauto.
Qed.

Lemma C5_parser_total_witness :
  let block := unlines [" HD"; " XQ"; "HD"; " la"; ""]%string in
  let df := new_frame default_fieldnames in
  exists record,
    parse_doc default_fieldnames (strip block) = record /\
    process_doc default_fieldnames df block = loc_append df record.
Proof.
  intros block df.
  destruct (C5_parser_total default_fieldnames df block)
    as (_ & _ & _ & record & Hrec & _ & Hrow & _ & _).
  exists record. split; [exact Hrec|].
  apply Hrow. vm_compute. discriminate.
Defined.

(** C6: a text with no tag boundary that does not begin with the inline
    headline or section form yields the empty dictionary, whatever it
    holds.  The loop body gives the walk the trimmed block: a block with no
    tag boundary whose trimmed text does not begin with an inline form
    yields the empty dictionary. *)
Theorem C6_no_tag_empty_record fieldnames :
  Forall field_code fieldnames ->
  (forall doc,
      search match_tag doc = None -> free_text doc ->
      parse_doc fieldnames doc = ∅) /\
  (forall block,
      search match_tag block = None -> free_text (strip block) ->
      parse_doc fieldnames (strip block) = ∅).
Proof.
  intros Hcodes.
  assert (Hdoc : forall doc,
             search match_tag doc = None -> free_text doc ->
             parse_doc fieldnames doc = ∅).
  { intros doc Hnone [Hhd Hse]. unfold parse_doc.
    rewrite re_split_no_match by (exact match_tag_ok || exact Hnone).
    simpl. rewrite walk_step_text; auto using search_None_head.
    simpl. unfold store. rewrite bool_decide_eq_false_2; [reflexivity|].
    apply field_codes_not_nil, Hcodes. }
  split; [exact Hdoc|].
  intros block Hnone Hfree. apply Hdoc; [|exact Hfree].
  apply search_tag_None_strip, Hnone.
Qed.

Lemma C6_no_tag_empty_record_witness :
  parse_doc default_fieldnames
    (unlines ["Markets rallied on Tuesday."; "Shares of HD rose."]%string)
  = ∅ /\
  parse_doc default_fieldnames
    (strip (unlines [" Markets rallied."; "Shares fell."; ""]%string))
  = ∅.
Proof.
  destruct (C6_no_tag_empty_record default_fieldnames
              default_fieldnames_codes) as [Hdoc Hblock].
  split.
  - apply Hdoc; [vm_compute; reflexivity | split; vm_compute; reflexivity].
  - apply Hblock; [vm_compute; reflexivity | split; vm_compute; reflexivity].
Defined.

(** ** The search summary and the page breaks *)

Lemma search_lit_first pat a b :
  (forall a' b', a ++ pat ++ b = a' ++ pat ++ b' ->
                 (length a <= length a')%nat) ->
  search (match_lit pat) (a ++ pat ++ b) = Some (a, pat, b).
Proof.
  intros Hfirst.
  rewrite (search_intro (match_lit pat) a (pat ++ b) (length pat)).
  - rewrite take_app_length, drop_app_length. reflexivity.
  - intros i Hi.
    destruct (match_lit pat (drop i (a ++ pat ++ b))) as [n|] eqn:Hn;
      [|reflexivity].
    apply match_lit_spec in Hn as [_ [r Hr]].
    pose proof (take_drop i (a ++ pat ++ b)) as Hsplit.
    rewrite Hr in Hsplit. symmetry in Hsplit. apply Hfirst in Hsplit.
    rewrite length_take, length_app in Hsplit. lia.
  - apply match_lit_spec. eauto.
Qed.

Lemma search_lit_absent pat text :
  (forall a b, text <> a ++ pat ++ b) -> search (match_lit pat) text = None.
Proof.
  intros Habs. apply search_None_intro. intros i.
  destruct (match_lit pat (drop i text)) as [n|] eqn:Hn; [|reflexivity].
  apply match_lit_spec in Hn as [_ [r Hr]].
  exfalso. apply (Habs (take i text) r).
  rewrite <- Hr, take_drop. reflexivity.
Qed.

Lemma search_sum_ok : matcher_ok (match_lit search_sum).
Proof. apply match_lit_ok. discriminate. Qed.

Lemma drop_search_sum_first a b :
  (forall a' b', a ++ search_sum ++ b = a' ++ search_sum ++ b' ->
                 (length a <= length a')%nat) ->
  drop_search_sum (a ++ search_sum ++ b) = a.
Proof.
  intros Hfirst. unfold drop_search_sum.
  rewrite re_split_eq by exact search_sum_ok.
  rewrite search_lit_first by exact Hfirst. reflexivity.
Qed.

Lemma drop_search_sum_absent text :
  (forall a b, text <> a ++ search_sum ++ b) -> drop_search_sum text = text.
Proof.
  intros Habs. unfold drop_search_sum.
  rewrite re_split_no_match; [reflexivity | exact search_sum_ok |].
  apply search_lit_absent, Habs.
Qed.

(** C7: the text of a file is cut at the first occurrence of the summary
    header: what precedes it is kept, and neither the header nor anything
    after it, articles included, adds a row; a text without the header is
    kept whole and split on the page break as it is. *)
Theorem C7_summary_dropped fieldnames df :
  (forall a b,
      (forall a' b', a ++ search_sum ++ b = a' ++ search_sum ++ b' ->
                     (length a <= length a')%nat) ->
      drop_search_sum (a ++ search_sum ++ b) = a /\
      load_text fieldnames df (a ++ search_sum ++ b)
      = load_text fieldnames df a) /\
  (forall text,
      (forall a b, text <> a ++ search_sum ++ b) ->
      drop_search_sum text = text /\
      load_text fieldnames df text
      = load_docs fieldnames df (re_split (match_lit sep) false text)).
Proof.
  split.
  - intros a b Hfirst. split; [apply drop_search_sum_first, Hfirst|].
    unfold load_text. rewrite drop_search_sum_first by exact Hfirst.
    rewrite drop_search_sum_absent; [reflexivity|].
    intros a1 b1 ->.
    specialize (Hfirst a1 (b1 ++ search_sum ++ b)).
    rewrite <- !app_assoc in Hfirst. specialize (Hfirst eq_refl).
    rewrite !length_app in Hfirst. simpl in Hfirst. lia.
  - intros text Habs. split; [apply drop_search_sum_absent, Habs|].
    unfold load_text. rewrite drop_search_sum_absent by exact Habs.
    reflexivity.
Qed.

Lemma split_fuel_pieces m capture n s piece c :
  piece ∈ split_fuel m capture n s -> c ∈ piece -> c ∈ s.
Proof.
  revert s. induction n as [|n IH]; intros s; simpl.
  - intros ->%list_elem_of_singleton. auto.
  - destruct (search m s) as [[[a d] b]|] eqn:Hs.
    + destruct (search_spec _ _ _ _ _ Hs) as (-> & _ & _).
      intros [->|Hin]%elem_of_cons Hc.
      * apply elem_of_app. auto.
      * apply elem_of_app in Hin as [Hin|Hin].
        -- destruct capture; [|inversion Hin].
           apply list_elem_of_singleton in Hin as ->.
           apply elem_of_app. right. apply elem_of_app. auto.
        -- apply elem_of_app. right. apply elem_of_app. right. eauto.
    + intros ->%list_elem_of_singleton. auto.
Qed.

Lemma filter_none {A} (P : A -> Prop) `{forall x, Decision (P x)} l :
  Forall (fun x => ~ P x) l -> filter P l = [].
Proof.
  induction 1 as [|x l Hx _ IH]; [reflexivity|].
  rewrite filter_cons_False by exact Hx. exact IH.
Qed.

Lemma articles_space text :
  Forall (fun c => isspace c = true) text -> articles text = [].
Proof.
  intros Hall. unfold articles. apply filter_none. apply Forall_forall.
  intros doc (piece & -> & Hpiece)%list_elem_of_fmap Hne. apply Hne.
  apply strip_all_space. apply Forall_forall. intros c Hc.
  rewrite Forall_forall in Hall. apply Hall.
  assert (Hkept : c ∈ drop_search_sum text).
  { eapply split_fuel_pieces; [exact Hpiece | exact Hc]. }
  unfold drop_search_sum in Hkept.
  destruct (re_split (match_lit search_sum) false text) as [|first l] eqn:Hl;
    [inversion Hkept|].
  eapply (split_fuel_pieces _ false (length text) text first);
    [|exact Hkept].
  unfold re_split in Hl. rewrite Hl. apply elem_of_cons. auto.
Qed.

(** C8: the rows a file adds are those of its blocks that are not empty
    once trimmed, in order; a block that trims to nothing adds no row.  So a
    text made of white space only, page breaks included, adds none, and
    neither does the text of two page breaks.  (A frame without columns
    takes no row: there the first block that is not empty stops the run.) *)
Theorem C8_empty_blocks_dropped fieldnames df :
  (forall text,
      load_text fieldnames df text =
      match
        filter (fun doc => doc <> [])
          (map strip (re_split (match_lit sep) false (drop_search_sum text))),
        columns df
      with
      | [], _ => Some df
      | _ :: _, [] => None
      | (_ :: _) as docs, (_ :: _) as cols =>
          Some (mkDataFrame cols
                  (rows df ++
                   map (fun doc => row_of cols (parse_doc fieldnames doc))
                       docs))
      end) /\
  (forall text,
      columns df <> [] ->
      load_text fieldnames df text =
      Some (mkDataFrame (columns df)
        (rows df ++
         map (fun doc => row_of (columns df) (parse_doc fieldnames doc))
             (filter (fun doc => doc <> [])
                (map strip
                   (re_split (match_lit sep) false
                      (drop_search_sum text))))))) /\
  (forall text,
      Forall (fun c => isspace c = true) text ->
      load_text fieldnames df text = Some df) /\
  load_text fieldnames df (sep ++ sep) = Some df.
Proof.
  assert (Hspace : forall text,
             Forall (fun c => isspace c = true) text ->
             load_text fieldnames df text = Some df).
  { intros text Hall. apply load_text_no_articles, articles_space, Hall. }
  split; [|split; [|split]].
  - intros text. apply load_text_spec.
  - intros text Hc. apply load_text_cols, Hc.
  - exact Hspace.
  - apply Hspace. repeat constructor.
Qed.

Lemma search_lit_first_inv pat s a b :
  search (match_lit pat) s = Some (a, pat, b) ->
  forall a' b', s = a' ++ pat ++ b' -> (length a <= length a')%nat.
Proof.
  intros (_ & _ & Hmin)%search_spec a' b' ->.
  destruct (le_lt_dec (length a) (length a')) as [Hle|Hlt]; [exact Hle|].
  specialize (Hmin _ Hlt). rewrite drop_app_length in Hmin.
  assert (H : match_lit pat (pat ++ b') = Some (length pat))
    by (apply match_lit_spec; eauto).
  congruence.
Qed.

Lemma search_lit_None_inv pat s :
  search (match_lit pat) s = None -> forall a b, s <> a ++ pat ++ b.
Proof.
  intros Hnone a b ->.
  pose proof (search_None _ _ Hnone (length a)) as H.
  rewrite drop_app_length in H.
  assert (H' : match_lit pat (pat ++ b) = Some (length pat))
    by (apply match_lit_spec; eauto).
  congruence.
Qed.

Lemma C7_summary_dropped_witness :
  let a := unlines ["HD First"; " LA"; "English"]%string in
  let b := unlines ["Text"; "HD Second"]%string in
  (drop_search_sum (a ++ search_sum ++ b) = a /\
   load_text default_fieldnames (new_frame default_fieldnames)
     (a ++ search_sum ++ b)
   = load_text default_fieldnames (new_frame default_fieldnames) a) /\
  (drop_search_sum a = a /\
   load_text default_fieldnames (new_frame default_fieldnames) a
   = load_docs default_fieldnames (new_frame default_fieldnames)
       (re_split (match_lit sep) false a)).
Proof.
  intros a b. split.
  - apply (proj1 (C7_summary_dropped default_fieldnames
                    (new_frame default_fieldnames)) a b).
    intros a' b' Heq.
    apply (search_lit_first_inv search_sum (a ++ search_sum ++ b) a b)
      with (b' := b'); [vm_compute; reflexivity | exact Heq].
  - apply (proj2 (C7_summary_dropped default_fieldnames
                    (new_frame default_fieldnames)) a).
    apply search_lit_None_inv. vm_compute. reflexivity.
Defined.

Lemma C8_empty_blocks_dropped_witness :
  let df := new_frame default_fieldnames in
  let text := sep ++ py " " ++ sep ++ [nl] in
  load_text default_fieldnames df text = Some df.
Proof.
  intros df text.
  apply (proj1 (proj2 (proj2
           (C8_empty_blocks_dropped default_fieldnames df))) text).
  repeat constructor.
Defined.

(** ** Which key a piece writes *)

Lemma inline_HD_SE_excl s :
  re_match (match_inline SE) s = true -> re_match (match_inline HD) s = false.
Proof.
  intros (w & r & -> & _)%inline_spec.
  destruct (re_match (match_inline HD) (SE ++ w :: r)) eqn:H; [|reflexivity].
  apply inline_spec in H as (w' & r' & Heq & _). discriminate.
Qed.

Lemma assigned_key_tag d : is_tag d -> assigned_key d = Some (strip d).
Proof.
  intros Hd. unfold assigned_key.
  rewrite (tag_not_HD _ Hd), (tag_not_SE _ Hd).
  unfold re_match. rewrite (is_tag_match _ Hd). reflexivity.
Qed.

Lemma shape_head t l : split_shape (t :: l) -> match_tag t = None.
Proof. inversion 1; subst; auto using search_None_head. Qed.

Section WalkKeys.

Variable fieldnames : list str.

Lemma store_store k v v' d :
  store fieldnames k v (store fieldnames k v' d) = store fieldnames k v d.
Proof. unfold store. case_bool_decide; [apply insert_insert_eq | reflexivity]. Qed.

Lemma store_lookup k v d :
  k ∈ fieldnames -> store fieldnames k v d !! k = Some v.
Proof.
  intros Hk. unfold store. rewrite bool_decide_eq_true_2 by exact Hk.
  apply lookup_insert_eq.
Qed.

Lemma store_lookup_ne k v d x :
  k <> x -> store fieldnames k v d !! x = d !! x.
Proof.
  intros Hne. unfold store. case_bool_decide; [|reflexivity].
  apply lookup_insert_ne, Hne.
Qed.

Lemma store_skip k v d : k ∉ fieldnames -> store fieldnames k v d = d.
Proof. intros Hk. unfold store. rewrite bool_decide_eq_false_2; auto. Qed.

Lemma walk_step_dict st s :
  metadata_dict (walk_step fieldnames st s) =
  store fieldnames (key (walk_step fieldnames st s))
    (value (walk_step fieldnames st s)) (metadata_dict st).
Proof.
  unfold walk_step.
  destruct (re_match (match_inline HD) s); [reflexivity|].
  destruct (re_match (match_inline SE) s); [reflexivity|].
  destruct (re_match match_tag s); reflexivity.
Qed.

Lemma walk_step_key st s :
  key (walk_step fieldnames st s) = default (key st) (assigned_key s).
Proof.
  unfold walk_step, assigned_key.
  destruct (re_match (match_inline HD) s); [reflexivity|].
  destruct (re_match (match_inline SE) s); [reflexivity|].
  destruct (re_match match_tag s); reflexivity.
Qed.

(** The value stored under [k] stays as long as no later piece sets the
    key to [k] and free text does not follow while [k] is the key. *)
Lemma walk_preserves k l st :
  Forall (fun s => assigned_key s <> Some k) l ->
  (key st <> k \/ l = [] \/
   exists s l', l = s :: l' /\ assigned_key s <> None) ->
  metadata_dict (walk fieldnames st l) !! k = metadata_dict st !! k.
Proof.
  revert st. induction l as [|s l IH]; intros st Hall Hstart; [reflexivity|].
  inversion Hall as [|? ? Hs Hall']; subst.
  assert (Hkey : key (walk_step fieldnames st s) <> k).
  { rewrite walk_step_key. destruct (assigned_key s) as [k'|] eqn:Hk'; simpl.
    - congruence.
    - destruct Hstart as [H|[H|(s' & l' & [= <- <-] & H)]]; congruence. }
  rewrite walk_cons, IH by auto.
  rewrite walk_step_dict. apply store_lookup_ne, Hkey.
Qed.

Lemma walk_preserves_shape k t post st :
  split_shape (t :: post) ->
  Forall (fun s => assigned_key s <> Some k) post ->
  metadata_dict (walk fieldnames st post) !! k = metadata_dict st !! k.
Proof.
  intros Hshape Hall. apply walk_preserves; [exact Hall|].
  destruct (shape_tail_cases _ _ Hshape) as [->|(d & post' & -> & Hd & _)];
    [auto|].
  right. right. exists d, post'. split; [reflexivity|].
  rewrite (assigned_key_tag _ Hd). discriminate.
Qed.

End WalkKeys.

(** ** Headline and section *)

(** C3, under a side condition: with HD (or SE) among the configured names,
    (a) when the first piece of the split of the trimmed block has the
    inline form, the walk records the code with the rest of that piece after
    its three character prefix, trimmed; (b) when the code stands on a tag
    line of its own and the piece after it is free text, that is, does not
    itself begin with the inline HD or SE form, the walk records the code
    with that piece, trimmed. In both cases this is the value of the final
    dictionary unless a later piece assigns the code again. *)
Theorem C3_headline_section fieldnames code doc :
  code = HD \/ code = SE -> code ∈ fieldnames ->
  (forall first rest,
      re_split match_tag true doc = first :: rest ->
      re_match (match_inline code) first = true ->
      metadata_dict (walk_step fieldnames walk_init first) !! code
      = Some (strip (drop 3 first)) /\
      (Forall (fun s => assigned_key s <> Some code) rest ->
       parse_doc fieldnames doc !! code = Some (strip (drop 3 first)))) /\
  (forall pre d t post,
      re_split match_tag true doc = pre ++ d :: t :: post ->
      is_tag d -> strip d = code -> free_text t ->
      metadata_dict (walk fieldnames walk_init (pre ++ [d; t])) !! code
      = Some (strip t) /\
      (Forall (fun s => assigned_key s <> Some code) post ->
       parse_doc fieldnames doc !! code = Some (strip t))).
Proof.
  intros Hcode Hin.
  pose proof (re_split_shape doc) as Hshape. split.
  - intros first rest Hsplit Hinline. rewrite Hsplit in Hshape.
    assert (Hstep : metadata_dict (walk_step fieldnames walk_init first) !! code
                    = Some (strip (drop 3 first))).
    { destruct Hcode as [-> | ->].
      - rewrite walk_step_HD by exact Hinline. simpl.
        apply store_lookup, Hin.
      - rewrite walk_step_SE by auto using inline_HD_SE_excl. simpl.
        apply store_lookup, Hin. }
    split; [exact Hstep|]. intros Hlater.
    unfold parse_doc. rewrite Hsplit, walk_cons.
    rewrite (walk_preserves_shape fieldnames code first rest) by assumption.
    exact Hstep.
  - intros pre d t post Hsplit Hd Hstrip [Hhd Hse]. rewrite Hsplit in Hshape.
    destruct (shape_after_tag _ _ _ Hshape Hd)
      as (t' & post' & [= <- <-] & Ht & Htail).
    assert (Hstep : metadata_dict (walk fieldnames walk_init (pre ++ [d; t]))
                    !! code = Some (strip t)).
    { rewrite walk_app. simpl.
      rewrite (walk_step_text fieldnames _ t) by assumption. simpl.
      rewrite walk_step_tag by exact Hd. simpl. rewrite Hstrip.
      apply store_lookup, Hin. }
    split; [exact Hstep|]. intros Hlater.
    unfold parse_doc. rewrite Hsplit.
    change (pre ++ d :: t :: post) with (pre ++ [d; t] ++ post).
    rewrite app_assoc, walk_app.
    rewrite (walk_preserves_shape fieldnames code t post) by assumption.
    exact Hstep.
Qed.

Lemma C3_headline_section_witness :
  let doc := unlines ["HD Rates rise"; " SE"; "Business"; " LA"; "English"]%string in
  parse_doc default_fieldnames doc !! HD = Some (py "Rates rise") /\
  parse_doc default_fieldnames doc !! SE = Some (py "Business").
Proof.
  intros doc. split.
  - refine (proj2 (proj1 (C3_headline_section default_fieldnames HD doc
                            (or_introl eq_refl) _)
                     (unlines ["HD Rates rise"; ""]%string)
                     [unlines [" SE"; ""]%string; unlines ["Business"; ""]%string;
                      unlines [" LA"; ""]%string; py "English"] _ _) _).
    + apply (bool_decide_unpack _). vm_compute. reflexivity.
    + vm_compute. reflexivity.
    + vm_compute. reflexivity.
    + repeat constructor; vm_compute; discriminate.
  - refine (proj2 (proj2 (C3_headline_section default_fieldnames SE doc
                            (or_intror eq_refl) _)
                     [unlines ["HD Rates rise"; ""]%string]
                     (unlines [" SE"; ""]%string)
                     (unlines ["Business"; ""]%string)
                     [unlines [" LA"; ""]%string; py "English"] _ _ _ _) _).
    + apply (bool_decide_unpack _). vm_compute. reflexivity.
    + vm_compute. reflexivity.
    + apply match_is_tag. vm_compute. reflexivity.
    + vm_compute. reflexivity.
    + split; vm_compute; reflexivity.
    + repeat constructor; vm_compute; discriminate.
Defined.

(** C3 as the specification states it fails in case (b): the headline
    under the tag line of HD begins with SE and a space, so it is taken for
    an inline section; HD keeps the value of the field before it and the
    section is overwritten. *)
Lemma C3_counterexample :
  let doc :=
    unlines ["SE Markets"; " HD"; "SE Asia stocks fall"; " LA";
             "English"]%string in
  re_split match_tag true doc
  = [unlines ["SE Markets"; ""]%string; unlines [" HD"; ""]%string;
     unlines ["SE Asia stocks fall"; ""]%string; unlines [" LA"; ""]%string;
     py "English"] /\
  parse_doc default_fieldnames doc !! HD = Some (py "Markets") /\
  parse_doc default_fieldnames doc !! SE = Some (py "Asia stocks fall") /\
  ~ tag_line_recorded default_fieldnames HD doc.
Proof.
  intros doc. split; [vm_compute; reflexivity|].
  split; [vm_compute; reflexivity|]. split; [vm_compute; reflexivity|].
  intros H.
  specialize (H [unlines ["SE Markets"; ""]%string]
                (unlines [" HD"; ""]%string)
                (unlines ["SE Asia stocks fall"; ""]%string)
                [unlines [" LA"; ""]%string; py "English"]).
  assert (Hval : metadata_dict
                   (walk default_fieldnames walk_init
                      ([unlines ["SE Markets"; ""]%string] ++
                       [unlines [" HD"; ""]%string;
                        unlines ["SE Asia stocks fall"; ""]%string])) !! HD
                 = Some (strip (unlines ["SE Asia stocks fall"; ""]%string))).
  { apply H; [vm_compute; reflexivity | | vm_compute; reflexivity].
    apply match_is_tag. vm_compute. reflexivity. }
  vm_compute in Hval. discriminate.
Qed.

(** ** A tag line and the piece after it *)

(** C10, under a side condition: in the split of a block every tag boundary
    is followed by exactly one piece that is not a tag boundary, itself
    followed by the end or by the next tag boundary. Unless that piece has
    the inline HD or SE form, it overwrites the value written when the tag
    was classified. In particular, when it is empty (the tag line is
    followed at once by another tag line, or ends the text that was split)
    and no later piece assigns the code again, a configured code maps to the
    empty string in the dictionary. *)
Theorem C10_tag_then_text fieldnames doc pre d rest :
  re_split match_tag true doc = pre ++ d :: rest ->
  is_tag d -> strip d ∈ fieldnames ->
  exists t post,
    rest = t :: post /\ match_tag t = None /\
    (post = [] \/ exists d' post', post = d' :: post' /\ is_tag d') /\
    (free_text t ->
     metadata_dict (walk fieldnames walk_init (pre ++ [d; t])) !! strip d
     = Some (strip t)) /\
    (t = [] ->
     Forall (fun s => assigned_key s <> Some (strip d)) post ->
     parse_doc fieldnames doc !! strip d = Some []).
Proof.
  intros Hsplit Hd Hin.
  pose proof (re_split_shape doc) as Hshape. rewrite Hsplit in Hshape.
  destruct (shape_after_tag _ _ _ Hshape Hd) as (t & post & -> & Ht & Htail).
  exists t, post. split; [reflexivity|]. split; [exact Ht|].
  assert (Hstep : free_text t ->
            metadata_dict (walk fieldnames walk_init (pre ++ [d; t])) !! strip d
            = Some (strip t)).
  { intros [Hhd Hse]. rewrite walk_app. simpl.
    rewrite (walk_step_text fieldnames _ t) by assumption. simpl.
    rewrite walk_step_tag by exact Hd. simpl.
    apply store_lookup, Hin. }
  split; [|split; [exact Hstep|]].
  - destruct (shape_tail_cases _ _ Htail) as [->|(d' & post' & -> & Hd' & _)];
      [left; reflexivity | right; eauto].
  - intros -> Hlater. unfold parse_doc. rewrite Hsplit.
    change (pre ++ d :: [] :: post) with (pre ++ [d; []] ++ post).
    rewrite app_assoc, walk_app.
    rewrite (walk_preserves_shape fieldnames (strip d) [] post) by assumption.
    apply Hstep. split; reflexivity.
Qed.

Lemma C10_tag_then_text_witness :
  let doc := unlines ["HD Rates rise"; " LA"; " CY"; "Norway"]%string in
  exists t post,
    [[]; unlines [" CY"; ""]%string; py "Norway"] = t :: post /\
    match_tag t = None /\
    (post = [] \/ exists d' post', post = d' :: post' /\ is_tag d') /\
    (free_text t ->
     metadata_dict
       (walk default_fieldnames walk_init
          ([unlines ["HD Rates rise"; ""]%string] ++
           [unlines [" LA"; ""]%string; t]))
       !! strip (unlines [" LA"; ""]%string)
     = Some (strip t)) /\
    (t = [] ->
     Forall (fun s => assigned_key s <>
                      Some (strip (unlines [" LA"; ""]%string))) post ->
     parse_doc default_fieldnames doc !! strip (unlines [" LA"; ""]%string)
     = Some []).
Proof.
  intros doc.
  apply (C10_tag_then_text default_fieldnames doc
           [unlines ["HD Rates rise"; ""]%string]
           (unlines [" LA"; ""]%string)).
  - vm_compute. reflexivity.
  - apply match_is_tag. vm_compute. reflexivity.
  - apply (bool_decide_unpack _). vm_compute. reflexivity.
Defined.

(** C10 as the specification states it fails: after the tag line of CY
    comes a piece in the inline SE form, which leaves under CY the value of
    the field before it. *)
Lemma C10_counterexample :
  let doc :=
    unlines ["HD Rates rise"; " LA"; "English"; " CY"; "SE Asia"]%string in
  re_split match_tag true doc
  = [unlines ["HD Rates rise"; ""]%string; unlines [" LA"; ""]%string;
     unlines ["English"; ""]%string; unlines [" CY"; ""]%string;
     py "SE Asia"] /\
  parse_doc default_fieldnames doc !! py "CY" = Some (py "English") /\
  ~ tag_text_overwrites default_fieldnames doc.
Proof.
  intros doc. split; [vm_compute; reflexivity|].
  split; [vm_compute; reflexivity|].
  intros H.
  destruct (H [unlines ["HD Rates rise"; ""]%string; unlines [" LA"; ""]%string;
               unlines ["English"; ""]%string]
              (unlines [" CY"; ""]%string) [py "SE Asia"])
    as (t & post & [= <- <-] & Hval).
  - vm_compute. reflexivity.
  - apply match_is_tag. vm_compute. reflexivity.
  - apply (bool_decide_unpack _). vm_compute. reflexivity.
  - vm_compute in Hval. discriminate.
Qed.

(** ** The order of the files *)

Lemma str_le_nil b : str_le [] b.
Proof. reflexivity. Qed.

Lemma str_le_cons x a y b :
  str_le (x :: a) (y :: b) <-> x < y \/ (x = y /\ str_le a b).
Proof.
  unfold str_le. simpl.
  rewrite orb_true_iff, andb_true_iff, N.ltb_lt, N.eqb_eq. reflexivity.
Qed.

#[global] Instance str_le_total : Total str_le.
Proof.
  intros a. induction a as [|x a IH]; intros b; [left; apply str_le_nil|].
  destruct b as [|y b]; [right; apply str_le_nil|].
  rewrite !str_le_cons.
  destruct (N.lt_trichotomy x y) as [H|[H|H]]; [auto| |auto].
  destruct (IH b); auto.
Qed.

#[global] Instance str_le_trans : Transitive str_le.
Proof.
  intros a. induction a as [|x a IH]; intros b c; [intros; apply str_le_nil|].
  destruct b as [|y b]; [discriminate|].
  destruct c as [|z c]; [discriminate|].
  rewrite !str_le_cons. intros [H1|[-> H1]] [H2|[-> H2]]; try (left; lia); auto.
  right. split; [reflexivity|]. eapply IH; eassumption.
Qed.

#[global] Instance str_le_antisymm : AntiSymm eq str_le.
Proof.
  intros a. induction a as [|x a IH]; intros b.
  - destruct b; [reflexivity|discriminate].
  - destruct b as [|y b]; [discriminate|].
    rewrite !str_le_cons. intros [H1|[-> H1]] [H2|[H H2]]; try lia.
    f_equal. apply IH; assumption.
Qed.

Lemma str_le_app p a b : str_le (p ++ a) (p ++ b) <-> str_le a b.
Proof.
  induction p as [|x p IH]; [reflexivity|]. simpl.
  rewrite str_le_cons, IH. split; [intros [H|[_ H]]; [lia|exact H] | auto].
Qed.

Lemma Sorted_map_path path l :
  Sorted str_le l -> Sorted str_le (map (fun name => path ++ name) l).
Proof.
  induction 1 as [|x l Hl IH Hx]; simpl; constructor; [exact IH|].
  destruct Hx; simpl; constructor. apply str_le_app. assumption.
Qed.

Lemma last_rev_head {A} (z : list A) : last (rev z) = head z.
Proof. destruct z as [|a z]; [reflexivity|]. simpl. apply last_snoc. Qed.

Lemma head_rev_last {A} (s : list A) : head (rev s) = last s.
Proof. rewrite <- (rev_involutive s) at 2. symmetry. apply last_rev_head. Qed.

(** [os.path.join] puts the same prefix before every name. *)
Lemma os_path_join_prefix dir :
  exists p, forall name, os_path_join dir name = p ++ name.
Proof.
  unfold os_path_join. destruct (last dir) as [c|].
  - destruct (c =? slash).
    + exists dir. reflexivity.
    + exists (dir ++ [slash]). intros name. rewrite <- app_assoc. reflexivity.
  - exists []. reflexivity.
Qed.

Lemma os_path_join_inj dir : Inj eq eq (os_path_join dir).
Proof.
  destruct (os_path_join_prefix dir) as [p Hp].
  intros a b. rewrite !Hp. apply app_inv_head.
Qed.

Lemma Sorted_map_join dir l :
  Sorted str_le l -> Sorted str_le (map (os_path_join dir) l).
Proof.
  destruct (os_path_join_prefix dir) as [p Hp].
  rewrite (map_ext _ (fun name => p ++ name) Hp). apply Sorted_map_path.
Qed.

Lemma lstrip_slash_keep s :
  head s <> Some slash -> lstrip_slash s = s.
Proof.
  destruct s as [|c s]; [reflexivity|]. simpl. intros Hc.
  destruct (c =? slash) eqn:E; [|reflexivity].
  apply N.eqb_eq in E. congruence.
Qed.

(** With a single separator at its end, the path itself is put before the
    names. *)
Lemma os_path_join_single dir name :
  last dir <> Some slash ->
  os_path_join (glob_dirname (dir ++ [slash])) name = (dir ++ [slash]) ++ name.
Proof.
  intros Hlast. unfold glob_dirname.
  destruct (forallb (fun c => c =? slash) (dir ++ [slash])) eqn:Hall.
  - rewrite forallb_app, andb_true_iff in Hall. destruct Hall as [Hall _].
    assert (Hd : dir = []).
    { destruct (last dir) as [c|] eqn:Hl; [|apply last_None, Hl].
      exfalso. apply Hlast. f_equal.
      apply last_Some_elem_of in Hl. apply list_elem_of_In in Hl.
      rewrite forallb_forall in Hall. apply N.eqb_eq, Hall, Hl. }
    subst dir. reflexivity.
  - unfold rstrip_slash. rewrite rev_app_distr. simpl.
    rewrite lstrip_slash_keep, rev_involutive.
    + unfold os_path_join. destruct (last dir) as [c|] eqn:Hl.
      * destruct (c =? slash) eqn:E;
          [apply N.eqb_eq in E; congruence|].
        rewrite <- app_assoc. reflexivity.
      * apply last_None in Hl. subst dir. discriminate.
    + rewrite head_rev_last. exact Hlast.
Qed.

Lemma files_all_perm path names names' :
  names' ≡ₚ names -> files_all path names' = files_all path names.
Proof.
  intros Hperm. unfold files_all.
  apply (Sorted_unique str_le); try apply Sorted_merge_sort; try apply _.
  rewrite !merge_sort_Permutation. unfold glob_txt.
  change (map ?f ?l) with (f <$> l). rewrite Hperm. reflexivity.
Qed.

Lemma files_all_names path names :
  files_all path names =
  map (os_path_join (glob_dirname path))
    (merge_sort str_le
       (filter (fun name => ishidden name = false /\ fnmatch_txt name = true)
          names)).
Proof.
  unfold files_all.
  apply (Sorted_unique str_le); try apply _.
  - apply Sorted_merge_sort; apply _.
  - apply Sorted_map_join, Sorted_merge_sort; apply _.
  - rewrite merge_sort_Permutation. unfold glob_txt.
    change (map ?f ?l) with (f <$> l).
    rewrite merge_sort_Permutation. reflexivity.
Qed.

Lemma text_rows_concat fieldnames texts :
  Forall (fun text => fieldnames <> [] \/ articles text = []) texts ->
  concat (map (text_rows fieldnames) texts)
  = article_rows fieldnames fieldnames (concat (map articles texts)).
Proof.
  induction 1 as [|text texts Ht _ IH]; [reflexivity|].
  simpl. rewrite IH, text_rows_eq by exact Ht.
  unfold article_rows. rewrite map_app. reflexivity.
Qed.

Lemma factiva_to_df_rows fieldnames read path names df :
  factiva_to_df fieldnames read path names = Some df ->
  exists texts,
    Forall2 (fun file text => read file = Some text)
            (files_all path names) texts /\
    rows df = concat (map (text_rows fieldnames) texts).
Proof.
  unfold factiva_to_df.
  intros (texts & Hread & _ & Hrows & Hnil)%load_files_rows.
  exists texts. split; [exact Hread|].
  rewrite Hrows, text_rows_concat; [reflexivity|].
  simpl in Hnil. destruct fieldnames as [|x l].
  - eapply Forall_impl; [apply Hnil; reflexivity|]. auto.
  - apply Forall_forall. intros text _. left. discriminate.
Qed.

(** C9, for a path that ends with the separator and holds no wildcard
    character, and for the entries [glob] matches: the files processed are
    the entries of the folder whose name ends in [.txt] and does not start
    with a dot, each once per entry and named by the directory part of the
    path joined to the entry name (the path followed by the name, when the
    path ends with a single separator), in the lexicographic order of their
    names whatever the order in which the folder lists them; when there is
    a configured field name and every file can be read the run returns a
    data frame; and the rows of a data frame returned are the rows of the
    files in that order, all rows of one file before those of the next. *)
Theorem C9_sorted_files fieldnames read path names :
  folder_path path ->
  (forall file,
      file ∈ files_all path names <->
      exists name, name ∈ names /\ ishidden name = false /\
                   ends_with (py ".txt") name = true /\
                   file = os_path_join (glob_dirname path) name) /\
  (forall dir name,
      path = dir ++ [slash] -> last dir <> Some slash ->
      os_path_join (glob_dirname path) name = path ++ name) /\
  (exists sorted_names,
      files_all path names
      = map (os_path_join (glob_dirname path)) sorted_names /\
      StronglySorted str_le sorted_names /\
      sorted_names ≡ₚ
        filter (fun name => ishidden name = false /\ fnmatch_txt name = true)
          names) /\
  StronglySorted str_le (files_all path names) /\
  (forall names', names' ≡ₚ names ->
                  files_all path names' = files_all path names) /\
  (fieldnames <> [] ->
   Forall (fun file => is_Some (read file)) (files_all path names) ->
   is_Some (factiva_to_df fieldnames read path names)) /\
  (forall df,
      factiva_to_df fieldnames read path names = Some df ->
      exists texts,
        Forall2 (fun file text => read file = Some text)
                (files_all path names) texts /\
        rows df = concat (map (text_rows fieldnames) texts)).
Proof.
  intros _. split; [|split; [|split; [|split; [|split; [|split]]]]].
  - intros file. unfold files_all. rewrite merge_sort_Permutation.
    unfold glob_txt. change (map ?f ?l) with (f <$> l).
    rewrite list_elem_of_fmap. split.
    + intros (name & -> & [[Hh Ht] Hin]%list_elem_of_filter).
      exists name. auto.
    + intros (name & Hin & Hh & Ht & ->). exists name.
      split; [reflexivity|]. apply list_elem_of_filter. auto.
  - intros dir name -> Hlast. apply os_path_join_single, Hlast.
  - eexists. split; [apply files_all_names|].
    split; [apply StronglySorted_merge_sort; apply _|].
    apply merge_sort_Permutation.
  - apply StronglySorted_merge_sort; apply _.
  - intros names'. apply files_all_perm.
  - intros Hfn. apply load_files_total. exact Hfn.
  - intros df. apply factiva_to_df_rows.
Qed.

Lemma C9_sorted_files_witness :
  let read := fun file : str =>
    if bool_decide (file = py "rtfs/a.txt")
    then Some (unlines ["HD First"; " LA"; "English"]%string)
    else Some (unlines ["HD Second"; " LA"; "French"]%string) in
  let names := [py "b.txt"; py ".c.txt"; py "a.txt"; py "a.rtf"] in
  folder_path (py "rtfs/") /\
  files_all (py "rtfs/") names = [py "rtfs/a.txt"; py "rtfs/b.txt"] /\
  files_all (py "rtfs/") (rev names) = files_all (py "rtfs/") names /\
  is_Some (factiva_to_df default_fieldnames read (py "rtfs/") names).
Proof.
  intros read names.
  assert (Hpath : folder_path (py "rtfs/")) by (split; reflexivity).
  destruct (C9_sorted_files default_fieldnames read (py "rtfs/") names Hpath)
    as (_ & _ & _ & _ & Hperm & Htotal & _).
  split; [exact Hpath|].
  split; [vm_compute; reflexivity|]. split.
  - apply Hperm. symmetry. apply Permutation_rev.
  - apply Htotal; [discriminate|]. vm_compute. repeat constructor; eauto.
Defined.

(** C9 as the specification states it fails: [glob] leaves out an entry
    whose name starts with a dot, although it has the [.txt] extension. *)
Lemma C9_counterexample :
  let names := [py "b.txt"; py ".c.txt"; py "a.txt"] in
  folder_path (py "rtfs/") /\
  files_all (py "rtfs/") names = [py "rtfs/a.txt"; py "rtfs/b.txt"] /\
  ~ lists_all_txt (py "rtfs/") names.
Proof.
  intros names. split; [split; reflexivity|].
  split; [vm_compute; reflexivity|].
  intros H. specialize (H (py ".c.txt")).
  assert (Hin : os_path_join (glob_dirname (py "rtfs/")) (py ".c.txt")
                ∈ files_all (py "rtfs/") names).
  { apply H; [|vm_compute; reflexivity].
    apply (bool_decide_unpack _). vm_compute. reflexivity. }
  revert Hin. apply (bool_decide_unpack _). vm_compute. reflexivity.
Qed.

(** ** Round trip of the generic layout *)

(** C1 as the specification states it fails: the block is trimmed before the
    split, so the tag of the first field has no white space before it; only
    HD and SE are recognized there, and a first field LA is lost. *)
Lemma C1_counterexample :
  let fields := [Field nl (py "LA") (py "English");
                 Field nl (py "CY") (py "Norway")] in
  generic_layout default_fieldnames fields /\
  strip (layout fields) = unlines ["LA"; "English"; "CY"; "Norway"]%string /\
  parse_doc default_fieldnames (strip (layout fields)) !! py "LA" = None /\
  record_of fields !! py "LA" = Some (py "English") /\
  ~ roundtrip default_fieldnames fields.
Proof.
  intros fields.
  assert (Hparse : parse_doc default_fieldnames (strip (layout fields))
                   !! py "LA" = None) by (vm_compute; reflexivity).
  assert (Hrec : record_of fields !! py "LA" = Some (py "English"))
    by (vm_compute; reflexivity).
  split; [|split; [vm_compute; reflexivity|]].
  - split; [apply (bool_decide_unpack _); vm_compute; reflexivity|].
    repeat constructor;
      try (apply (bool_decide_unpack _); vm_compute; reflexivity);
      try (vm_compute; discriminate).
  - split; [exact Hparse|]. split; [exact Hrec|].
    unfold roundtrip. intros Heq. rewrite Heq, Hrec in Hparse. discriminate.
Qed.

Lemma rstrip_nil_inv t :
  rstrip t = [] -> Forall (fun c => isspace c = true) t.
Proof.
  intros H. destruct (rstrip_prefix t) as (q & Hq & Hall).
  rewrite H in Hq. simpl in Hq. rewrite Hq. exact Hall.
Qed.

Lemma strip_nil_iff t :
  strip t = [] <-> Forall (fun c => isspace c = true) t.
Proof.
  split; [|apply strip_all_space].
  unfold strip. intros H%rstrip_nil_inv.
  destruct (lstrip_suffix t) as (p & Hp & Hall).
  pose proof (lstrip_head_not_space t) as Hhead.
  destruct (lstrip t) as [|c s].
  - rewrite Hp, app_nil_r. exact Hall.
  - inversion H; subst. congruence.
Qed.

Lemma strip_not_nil_rstrip t : strip t <> [] -> rstrip t <> [].
Proof.
  intros Ht H. apply Ht. apply strip_nil_iff, rstrip_nil_inv, H.
Qed.

Lemma strip_not_nil_app p t : strip t <> [] -> strip (p ++ t) <> [].
Proof.
  intros Ht H. apply Ht. apply strip_nil_iff.
  apply strip_nil_iff in H. apply Forall_app in H. tauto.
Qed.

Lemma rstrip_idemp t : rstrip (rstrip t) = rstrip t.
Proof. unfold rstrip. rewrite rev_involutive, lstrip_idemp. reflexivity. Qed.

Lemma rstrip_cons c t : rstrip t <> [] -> rstrip (c :: t) = c :: rstrip t.
Proof. intros H. exact (rstrip_app [c] t H). Qed.

Lemma rstrip_cons_nil c t :
  rstrip t = [] -> rstrip (c :: t) = if isspace c then [] else [c].
Proof.
  intros H%rstrip_nil_inv. unfold rstrip. simpl.
  rewrite lstrip_app_space.
  - simpl. destruct (isspace c); reflexivity.
  - apply Forall_forall. intros x Hx. rewrite Forall_forall in H. apply H.
    apply list_elem_of_In. apply list_elem_of_In in Hx. apply in_rev. exact Hx.
Qed.

Lemma lstrip_rstrip t : lstrip (rstrip t) = rstrip (lstrip t).
Proof.
  induction t as [|c t IH]; [reflexivity|].
  destruct (decide (rstrip t = [])) as [Hnil|Hne].
  - rewrite (rstrip_cons_nil c t Hnil). simpl.
    destruct (isspace c) eqn:Hc; simpl; rewrite ?Hc.
    + rewrite (lstrip_all_space t (rstrip_nil_inv t Hnil)). reflexivity.
    + rewrite (rstrip_cons_nil c t Hnil), Hc. reflexivity.
  - rewrite (rstrip_cons c t Hne). simpl.
    destruct (isspace c) eqn:Hc; [exact IH|].
    rewrite (rstrip_cons c t Hne). reflexivity.
Qed.

Lemma strip_rstrip t : strip (rstrip t) = strip t.
Proof. unfold strip. rewrite lstrip_rstrip, rstrip_idemp. reflexivity. Qed.

Lemma free_text_rstrip t : free_text t -> free_text (rstrip t).
Proof.
  assert (H : forall code, re_match (match_inline code) t = false ->
                           re_match (match_inline code) (rstrip t) = false).
  { intros code Ht.
    destruct (re_match (match_inline code) (rstrip t)) eqn:Hr; [|reflexivity].
    apply inline_spec in Hr as (w & r & Heq & Hw).
    destruct (rstrip_prefix t) as (q & Hq & _).
    assert (Hin : re_match (match_inline code) t = true).
    { apply inline_spec. exists w, (r ++ q). split; [|exact Hw].
      rewrite Hq, Heq, <- app_assoc. reflexivity. }
    congruence. }
  intros [Hhd Hse]. split; auto.
Qed.

Lemma search_tag_None_rstrip t :
  search match_tag t = None -> search match_tag (rstrip t) = None.
Proof.
  intros H. destruct (rstrip_prefix t) as (q & Hq & _).
  rewrite Hq in H. apply search_tag_None_app_r in H. exact H.
Qed.

Lemma tagline_assoc (v : str) w t Y :
  v ++ w :: t ++ nl :: Y = (v ++ w :: t ++ [nl]) ++ Y.
Proof.
  rewrite <- app_assoc. simpl. rewrite <- app_assoc. reflexivity.
Qed.

Lemma layout_after_app p v rest :
  layout_after (p ++ v) rest = p ++ layout_after v rest.
Proof. destruct rest; simpl; [reflexivity | apply eq_sym, app_assoc]. Qed.

Lemma layout_after_r_not_nil v rest :
  strip v <> [] -> layout_after_r v rest <> [].
Proof.
  intros Hv. destruct rest as [|g rest]; simpl.
  - apply strip_not_nil_rstrip, Hv.
  - destruct v; discriminate.
Qed.

Lemma rstrip_layout_after v rest :
  Forall (fun g => strip (text g) <> []) rest -> strip v <> [] ->
  rstrip (layout_after v rest) = layout_after_r v rest.
Proof.
  intros Hall. revert v. induction Hall as [|g rest Hg _ IH]; intros v Hv;
    [reflexivity|].
  simpl. rewrite (tagline_assoc v), rstrip_app; rewrite IH by exact Hg.
  - symmetry. apply tagline_assoc.
  - apply layout_after_r_not_nil, Hg.
Qed.

Lemma search_tag_None_no_space p s :
  Forall (fun c => isspace c = false) p ->
  search match_tag s = None -> search match_tag (p ++ s) = None.
Proof.
  intros Hp Hs. induction Hp as [|c p Hc _ IH]; [exact Hs|].
  simpl. rewrite IH.
  destruct (p ++ s) as [|a [|b r]]; try reflexivity.
  rewrite Hc. reflexivity.
Qed.

(** The trimmed block: the first tag has lost its white space character
    and the last text its trailing white space. *)
Lemma strip_layout f rest :
  isspace (lead f) = true -> field_code (tag f) ->
  strip (text f) <> [] -> Forall (fun g => strip (text g) <> []) rest ->
  strip (layout (f :: rest)) = layout_after_r (tag f ++ nl :: text f) rest.
Proof.
  intros Hw Hcode Hv Hrest. unfold strip, layout. simpl. rewrite Hw.
  pose proof (field_code_no_space _ Hcode) as Hns.
  rewrite lstrip_app_keep
    by (rewrite lstrip_no_space by exact Hns; apply field_code_not_nil, Hcode).
  rewrite lstrip_no_space by exact Hns.
  assert (E : tag f ++ nl :: layout_after (text f) rest
              = layout_after (tag f ++ nl :: text f) rest).
  { change (tag f ++ nl :: text f) with (tag f ++ [nl] ++ text f).
    rewrite app_assoc, layout_after_app, <- app_assoc. reflexivity. }
  rewrite E. apply rstrip_layout_after; [exact Hrest|].
  change (tag f ++ nl :: text f) with (tag f ++ [nl] ++ text f).
  rewrite app_assoc. apply strip_not_nil_app, Hv.
Qed.

(** A tag boundary that starts inside a text and runs past its end can only
    end on the character after the text, which must then be a line feed:
    the text and that character alone tell whether one starts in the
    text. *)
Lemma no_tag_before v w X i :
  isspace w = true -> search match_tag (v ++ [w]) = None ->
  (i < length v)%nat -> match_tag (drop i (v ++ w :: X)) = None.
Proof.
  intros Hw Hnone Hi.
  destruct (match_tag (drop i (v ++ w :: X))) as [n|] eqn:Hn; [|reflexivity].
  exfalso. rewrite drop_app_le in Hn by lia.
  pose proof (search_None _ _ Hnone i) as Hu.
  rewrite drop_app_le in Hu by lia.
  assert (Hlen : (1 <= length (drop i v))%nat) by (rewrite length_drop; lia).
  remember (drop i v) as u eqn:Hdef. clear Hdef Hi Hnone.
  apply match_tag_inv in Hn as (w0 & code & rest0 & Heq & Hw0 & Hcode & ->).
  destruct (le_lt_dec (length u) (length code)) as [Hle|Hgt].
  - pose proof (list_lookup_middle u X w (length u) eq_refl) as Hmid.
    rewrite Heq in Hmid.
    destruct (length u) as [|k] eqn:Hk; [lia|]. simpl in Hmid.
    rewrite lookup_app_l in Hmid by lia.
    apply list_elem_of_lookup_2 in Hmid.
    destruct Hcode as [_ Hup]. rewrite Forall_forall in Hup.
    apply Hup, isupper_not_space in Hmid. congruence.
  - assert (Hin : u ++ [w]
                  = w0 :: code ++ nl :: take (length u - length code - 1) rest0).
    { apply (f_equal (take (S (length u)))) in Heq.
      change (u ++ w :: X) with (u ++ [w] ++ X) in Heq.
      rewrite app_assoc, take_app_length' in Heq
        by (rewrite length_app; simpl; lia).
      rewrite Heq. simpl. f_equal.
      rewrite take_app_ge by lia.
      destruct (length u - length code)%nat as [|m] eqn:Hm; [lia|].
      simpl. do 3 f_equal. lia. }
    rewrite Hin, match_tag_intro in Hu by assumption. discriminate.
Qed.

Lemma search_tagline v g X :
  isspace (lead g) = true -> field_code (tag g) ->
  search match_tag (v ++ [lead g]) = None ->
  search match_tag (v ++ lead g :: tag g ++ nl :: X)
  = Some (v, lead g :: tag g ++ [nl], X).
Proof.
  intros Hw Hcode Hnone.
  rewrite (search_intro match_tag v _ (S (S (length (tag g))))).
  - simpl. do 3 f_equal.
    + change (nl :: X) with ([nl] ++ X). rewrite app_assoc.
      rewrite take_app_length' by (rewrite length_app; simpl; lia).
      reflexivity.
    + change (nl :: X) with ([nl] ++ X). rewrite app_assoc.
      rewrite drop_app_length' by (rewrite length_app; simpl; lia).
      reflexivity.
  - intros i Hi. apply no_tag_before; assumption.
  - apply match_tag_intro; assumption.
Qed.

(** The split of the trimmed block: the texts and the tag lines. *)
Lemma split_layout rest v :
  Forall (fun g => isspace (lead g) = true /\ field_code (tag g)) rest ->
  texts_clear v rest ->
  re_split match_tag true (layout_after_r v rest)
  = piece_text rest v :: pieces_of rest.
Proof.
  intros Hall. revert v. induction Hall as [|g rest [Hw Hcode] _ IH];
    intros v Hclear; simpl in *.
  - apply re_split_no_match; [exact match_tag_ok|].
    apply search_tag_None_rstrip, Hclear.
  - destruct Hclear as [Hv Hclear].
    rewrite re_split_eq by exact match_tag_ok.
    rewrite search_tagline by assumption.
    rewrite IH by exact Hclear. reflexivity.
Qed.

Lemma texts_clear_prefix p v rest :
  Forall (fun c => isspace c = false) p ->
  texts_clear v rest -> texts_clear (p ++ v) rest.
Proof.
  intros Hp. destruct rest as [|g rest]; simpl.
  - apply search_tag_None_no_space, Hp.
  - intros [Hv Hrest]. split; [|exact Hrest].
    rewrite <- app_assoc. apply search_tag_None_no_space; assumption.
Qed.

Lemma piece_text_app rest p v :
  strip v <> [] -> piece_text rest (p ++ v) = p ++ piece_text rest v.
Proof.
  intros Hv. destruct rest; simpl; [|reflexivity].
  apply rstrip_app, strip_not_nil_rstrip, Hv.
Qed.

Lemma strip_piece_text rest v : strip (piece_text rest v) = strip v.
Proof. destruct rest; simpl; [apply strip_rstrip | reflexivity]. Qed.

Lemma free_text_piece rest v : free_text v -> free_text (piece_text rest v).
Proof. destruct rest; simpl; [apply free_text_rstrip | auto]. Qed.

Lemma search_piece_text rest v :
  search match_tag v = None -> search match_tag (piece_text rest v) = None.
Proof. destruct rest; simpl; [apply search_tag_None_rstrip | auto]. Qed.

Lemma is_tag_intro w code :
  isspace w = true -> field_code code -> is_tag (w :: code ++ [nl]).
Proof. intros Hw Hcode. exists w, code. auto. Qed.

(** The walk over the tag lines and texts of the fields [rest] stores every
    tag with its trimmed text. *)
Lemma walk_pieces fieldnames rest st :
  Forall (fun g => isspace (lead g) = true /\ field_code (tag g) /\
                   tag g ∈ fieldnames /\ free_text (text g) /\
                   search match_tag (text g) = None) rest ->
  metadata_dict (walk fieldnames st (pieces_of rest))
  = foldl (fun d g => <[tag g := strip (text g)]> d) (metadata_dict st) rest.
Proof.
  intros Hall. revert st.
  induction Hall as [|g rest (Hw & Hcode & Hin & Hfree & Hnone) _ IH];
    intros st; [reflexivity|].
  cbn [pieces_of foldl]. rewrite !walk_cons, IH. f_equal.
  pose proof (free_text_piece rest _ Hfree) as [Hhd Hse].
  rewrite walk_step_text
    by (try assumption; apply search_None_head, search_piece_text, Hnone).
  rewrite walk_step_tag by (apply is_tag_intro; assumption).
  cbn [key value metadata_dict].
  rewrite strip_tag, strip_piece_text, store_store by assumption.
  unfold store. rewrite bool_decide_eq_true_2 by exact Hin. reflexivity.
Qed.

Lemma record_of_lookup_None rest k :
  k ∉ map tag rest -> record_of rest !! k = None.
Proof.
  intros Hk. unfold record_of. apply not_elem_of_list_to_map_1.
  intros Hin. apply Hk. clear Hk.
  induction rest as [|g rest IH]; simpl in *; [exact Hin|].
  apply elem_of_cons in Hin as [->|Hin]; [left | right; auto].
Qed.

Lemma foldl_insert_fields (rest : list field) (d0 : gmap str str) :
  NoDup (map tag rest) ->
  foldl (fun d g => <[tag g := strip (text g)]> d) d0 rest
  = record_of rest ∪ d0.
Proof.
  revert d0. induction rest as [|g rest IH]; intros d0 Hnd; simpl.
  - unfold record_of. simpl. rewrite (left_id_L ∅ (∪)). reflexivity.
  - apply NoDup_cons in Hnd as [Hg Hnd].
    rewrite IH by exact Hnd.
    rewrite <- insert_union_r by (apply record_of_lookup_None, Hg).
    unfold record_of. simpl. rewrite insert_union_l. reflexivity.
Qed.

Lemma walk_step_first fieldnames code t :
  code = HD \/ code = SE -> code ∈ fieldnames ->
  metadata_dict (walk_step fieldnames walk_init ((code ++ [nl]) ++ t))
  = <[code := strip t]> ∅.
Proof.
  intros Hcode Hin.
  assert (Hinl : re_match (match_inline code) ((code ++ [nl]) ++ t) = true).
  { apply inline_spec. exists nl, t. rewrite <- app_assoc.
    split; reflexivity. }
  assert (Hdrop : drop 3 ((code ++ [nl]) ++ t) = t)
    by (destruct Hcode as [-> | ->]; reflexivity).
  destruct Hcode as [-> | ->].
  - rewrite walk_step_HD by exact Hinl. cbn [metadata_dict walk_init].
    rewrite Hdrop. unfold store.
    rewrite bool_decide_eq_true_2 by exact Hin. reflexivity.
  - rewrite walk_step_SE by auto using inline_HD_SE_excl.
    cbn [metadata_dict walk_init].
    rewrite Hdrop. unfold store.
    rewrite bool_decide_eq_true_2 by exact Hin. reflexivity.
Qed.

(** C1, under side conditions: when the first tag is HD or SE, no text after
    the first begins with the inline HD or SE form, and no text holds a tag
    boundary even when taken with the white space character that starts the
    next tag line (and, for the first text, with the line feed that ends its
    own tag line), the block in the generic layout parses back to the
    mapping from every tag to its trimmed text. *)
Theorem C1_roundtrip fieldnames f rest :
  generic_layout fieldnames (f :: rest) ->
  tag f = HD \/ tag f = SE ->
  Forall (fun g => free_text (text g)) rest ->
  texts_clear (nl :: text f) rest ->
  parse_doc fieldnames (strip (layout (f :: rest))) = record_of (f :: rest).
Proof.
  intros [Hnd Hall] Hfirst Hfree Hclear.
  apply NoDup_cons in Hnd as [Hf Hnd].
  inversion Hall as [|? ? (Hw & Hcode & Hin & Hv & Hnone) Hrest]; subst.
  rewrite strip_layout; try assumption;
    [|eapply Forall_impl; [exact Hrest|]; intros g (?&?&?&?&?); auto].
  unfold parse_doc. rewrite split_layout;
    [|eapply Forall_impl; [exact Hrest|]; intros g (?&?&?&?&?); auto|].
  - change (tag f ++ nl :: text f) with (tag f ++ [nl] ++ text f).
    rewrite app_assoc, piece_text_app by exact Hv.
    rewrite walk_cons, walk_pieces.
    + rewrite foldl_insert_fields by exact Hnd.
      rewrite (walk_step_first fieldnames (tag f)) by assumption.
      rewrite strip_piece_text.
      rewrite <- insert_union_r by (apply record_of_lookup_None, Hf).
      rewrite (right_id_L ∅ (∪)). reflexivity.
    + rewrite Forall_forall in Hrest, Hfree. apply Forall_forall.
      intros g Hg. specialize (Hrest g Hg). specialize (Hfree g Hg).
      simpl in *. tauto.
  - change (tag f ++ nl :: text f) with (tag f ++ (nl :: text f)).
    apply texts_clear_prefix; [|exact Hclear].
    apply field_code_no_space, Hcode.
Qed.

Lemma C1_roundtrip_witness :
  let f := Field nl (py "HD") (py "Rates rise again ") in
  let rest := [Field 32 (py "LA") (py "English");
               Field nl (py "LP") (unlines ["The bank"; "raised rates."; ""]%string)] in
  parse_doc default_fieldnames (strip (layout (f :: rest)))
  = record_of (f :: rest).
Proof.
  intros f rest. apply C1_roundtrip.
  - split; [apply (bool_decide_unpack _); vm_compute; reflexivity|].
    repeat constructor;
      try (apply (bool_decide_unpack _); vm_compute; reflexivity);
      try (vm_compute; discriminate).
  - left. reflexivity.
  - repeat constructor; vm_compute; reflexivity.
  - vm_compute. auto.
Defined.

(** The two side conditions of the round trip are needed.  A text after the
    first that begins with the inline form is taken for a section. *)
Example roundtrip_needs_free_text :
  let fields := [Field nl (py "HD") (py "Rates rise");
                 Field nl (py "LP") (py "SE Asian markets fell.")] in
  generic_layout default_fieldnames fields /\
  texts_clear (nl :: py "Rates rise") (tail fields) /\
  parse_doc default_fieldnames (strip (layout fields))
  = <[py "HD" := py "Rates rise"]>
      (<[py "LP" := py "Rates rise"]>
         (<[py "SE" := py "Asian markets fell."]> ∅)).
Proof.
  intros fields. split; [|split; vm_compute; auto].
  split; [apply (bool_decide_unpack _); vm_compute; reflexivity|].
  repeat constructor;
    try (apply (bool_decide_unpack _); vm_compute; reflexivity);
    try (vm_compute; discriminate).
Qed.

(** A text that ends in capitals forms a tag boundary with the line feed
    that starts the next tag line. *)
Example roundtrip_needs_clear_boundary :
  let fields := [Field nl (py "HD") (py "Made in NY");
                 Field nl (py "LA") (py "English")] in
  generic_layout default_fieldnames fields /\
  Forall (fun g => free_text (text g)) (tail fields) /\
  re_split match_tag true (strip (layout fields))
  = [unlines ["HD"; "Made in"]%string; unlines [" NY"; ""]%string;
     unlines ["LA"; "English"]%string] /\
  parse_doc default_fieldnames (strip (layout fields))
  = <[py "HD" := py "Made in"]> ∅.
Proof.
  intros fields. split; [|split; [|split; vm_compute; reflexivity]].
  - split; [apply (bool_decide_unpack _); vm_compute; reflexivity|].
    repeat constructor;
      try (apply (bool_decide_unpack _); vm_compute; reflexivity);
      try (vm_compute; discriminate).
  - repeat constructor; vm_compute; reflexivity.
Qed.

(** ** Unrecognized codes *)





Section Unrecognized.

Variable fieldnames : list str.
Variables (doc : str) (pre : list str) (d t : str) (post : list str).
Hypothesis Hsplit : re_split match_tag true doc = pre ++ d :: t :: post.
Hypothesis Hd : is_tag d.
Hypothesis Hout : strip d ∉ fieldnames.
Hypothesis Hfree : free_text t.



End Unrecognized.




(** The side condition on the text before the tag line is needed: without
    the tag line of BY and its text, the capitals that end the headline
    stand before the line feed of the next tag line and make a tag boundary
    of their own. *)
Example unrecognized_needs_clear_boundary :
  let doc := unlines ["HD Made in US BY"; "Jane Doe"; "LA"; "English"]%string in
  let without := unlines ["HD Made in US"; "LA"; "English"]%string in
  re_split match_tag true doc
  = [py "HD Made in US"; unlines [" BY"; ""]%string; py "Jane Doe";
     nl :: unlines ["LA"; ""]%string; py "English"] /\
  without = py "HD Made in US" ++ (nl :: unlines ["LA"; ""]%string) ++
            py "English" /\
  parse_doc default_fieldnames doc
  = <[py "HD" := py "Made in US"]> (<[py "LA" := py "English"]> ∅) /\
  parse_doc default_fieldnames without = <[py "HD" := py "Made in"]> ∅.
Proof. repeat split; vm_compute; reflexivity. Qed.

(** * Further properties of the notebook *)

(** ** What the dictionary of an article holds *)

Lemma strip_idemp s : strip (strip s) = strip s.
Proof.
  unfold strip. rewrite lstrip_rstrip, rstrip_idemp, lstrip_idemp.
  reflexivity.
Qed.

Lemma substring_refl s : substring s s.
Proof. exists [], []. rewrite app_nil_r. reflexivity. Qed.

Lemma substring_nil s : substring [] s.
Proof. exists [], s. reflexivity. Qed.

Lemma substring_trans u v s : substring u v -> substring v s -> substring u s.
Proof.
  intros (a & b & ->) (a' & b' & ->). exists (a' ++ a), (b ++ b').
  rewrite <- !app_assoc. reflexivity.
Qed.

Lemma substring_strip s : substring (strip s) s.
Proof.
  unfold strip. destruct (lstrip_suffix s) as (p & Hp & _).
  destruct (rstrip_prefix (lstrip s)) as (q & Hq & _).
  exists p, q. rewrite <- Hq. exact Hp.
Qed.

Lemma substring_drop n s : substring (drop n s) s.
Proof. exists (take n s), []. rewrite app_nil_r, take_drop. reflexivity. Qed.

Lemma split_fuel_substring m capture n s piece :
  piece ∈ split_fuel m capture n s -> substring piece s.
Proof.
  revert s. induction n as [|n IH]; intros s; simpl.
  - intros ->%list_elem_of_singleton. apply substring_refl.
  - destruct (search m s) as [[[a d] b]|] eqn:Hs.
    + destruct (search_spec _ _ _ _ _ Hs) as (-> & _ & _).
      intros [->|Hin]%elem_of_cons.
      * exists [], (d ++ b). reflexivity.
      * apply elem_of_app in Hin as [Hin|Hin].
        -- destruct capture; [|inversion Hin].
           apply list_elem_of_singleton in Hin as ->. exists a, b. reflexivity.
        -- apply (substring_trans _ b); [eauto|].
           exists (a ++ d), []. rewrite app_nil_r, <- app_assoc. reflexivity.
    + intros ->%list_elem_of_singleton. apply substring_refl.
Qed.

(** The value after a step is the value before it or the trimmed form of a
    part of the piece. *)
Lemma walk_step_value fieldnames st s :
  value (walk_step fieldnames st s) = value st \/
  exists x, substring x s /\ value (walk_step fieldnames st s) = strip x.
Proof.
  unfold walk_step.
  destruct (re_match (match_inline HD) s);
    [right; exists (drop 3 s); split; [apply substring_drop | reflexivity]|].
  destruct (re_match (match_inline SE) s);
    [right; exists (drop 3 s); split; [apply substring_drop | reflexivity]|].
  destruct (re_match match_tag s); [left; reflexivity|].
  right. exists s. split; [apply substring_refl | reflexivity].
Qed.

Section WalkValues.

Variable fieldnames : list str.
Variable P : str -> Prop.

(** A property of the values that holds of the trimmed parts of the pieces
    holds of every value the walk stores. *)
Lemma walk_values l st :
  Forall (fun piece => forall x, substring x piece -> P (strip x)) l ->
  P (value st) ->
  map_Forall (fun _ v => P v) (metadata_dict st) ->
  P (value (walk fieldnames st l)) /\
  map_Forall (fun _ v => P v) (metadata_dict (walk fieldnames st l)).
Proof.
  intros Hall. revert st. induction Hall as [|s l Hs _ IH]; intros st Hv Hd;
    [split; assumption|].
  rewrite walk_cons.
  assert (Hv' : P (value (walk_step fieldnames st s))).
  { destruct (walk_step_value fieldnames st s) as [->|(x & Hx & ->)]; auto. }
  apply IH; [exact Hv'|].
  rewrite walk_step_dict. unfold store. case_bool_decide; [|exact Hd].
  apply map_Forall_insert_2; assumption.
Qed.

End WalkValues.

(** A trimmed string neither begins nor ends with white space. *)
Lemma strip_ends s :
  (forall c, head (strip s) = Some c -> isspace c = false) /\
  (forall c, last (strip s) = Some c -> isspace c = false).
Proof.
  unfold strip. split; intros c Hc.
  - destruct (rstrip_prefix (lstrip s)) as (q & Hq & _).
    pose proof (lstrip_head_not_space s) as Hhead.
    destruct (rstrip (lstrip s)) as [|c' r]; [discriminate|].
    injection Hc as ->. rewrite Hq in Hhead. exact Hhead.
  - unfold rstrip in Hc. rewrite last_rev_head in Hc.
    pose proof (lstrip_head_not_space (rev (lstrip s))) as Hhead.
    destruct (lstrip (rev (lstrip s))) as [|c' r]; [discriminate|].
    injection Hc as ->. exact Hhead.
Qed.

(** X1: every value of the dictionary of an article is trimmed: trimming
    it again changes nothing, and it neither begins nor ends with a white
    space character. *)
Theorem parse_doc_values_trimmed fieldnames doc code v :
  parse_doc fieldnames doc !! code = Some v ->
  strip v = v /\
  (forall c, head v = Some c -> isspace c = false) /\
  (forall c, last v = Some c -> isspace c = false).
Proof.
  intros Hv.
  assert (Htrim : strip v = v).
  { unfold parse_doc in Hv.
    destruct (walk_values fieldnames (fun v => strip v = v)
                (re_split match_tag true doc) walk_init) as [_ Hd].
    - apply Forall_forall. intros piece _ x _. apply strip_idemp.
    - reflexivity.
    - apply map_Forall_empty.
    - exact (map_Forall_lookup_1 _ _ _ _ Hd Hv). }
  split; [exact Htrim|]. rewrite <- Htrim. apply strip_ends.
Qed.

Lemma parse_doc_values_trimmed_witness :
  let doc := unlines ["HD  Rates rise "; " LA"; ""; "English  "]%string in
  strip (py "Rates rise") = py "Rates rise" /\
  (forall c, head (py "Rates rise") = Some c -> isspace c = false) /\
  (forall c, last (py "Rates rise") = Some c -> isspace c = false).
Proof.
  intros doc.
  apply (parse_doc_values_trimmed default_fieldnames doc HD).
  vm_compute. reflexivity.
Defined.

(** X2: every value of the dictionary of an article occurs in the article
    as a run of consecutive characters: the walk records no text that is
    not in the block. *)
Theorem parse_doc_values_substrings fieldnames doc code v :
  parse_doc fieldnames doc !! code = Some v -> substring v doc.
Proof.
  intros Hv. unfold parse_doc in Hv.
  destruct (walk_values fieldnames (fun v => substring v doc)
              (re_split match_tag true doc) walk_init) as [_ Hd].
  - apply Forall_forall. intros piece Hpiece x Hx.
    apply (substring_trans _ x); [apply substring_strip|].
    apply (substring_trans _ piece); [exact Hx|].
    eapply split_fuel_substring. exact Hpiece.
  - apply substring_nil.
  - apply map_Forall_empty.
  - exact (map_Forall_lookup_1 _ _ _ _ Hd Hv).
Qed.

Lemma parse_doc_values_substrings_witness :
  let doc := unlines ["HD  Rates rise "; " LA"; ""; "English  "]%string in
  substring (py "English") doc.
Proof.
  intros doc.
  apply (parse_doc_values_substrings default_fieldnames doc (py "LA")).
  vm_compute. reflexivity.
Defined.

(** ** Which codes the dictionary has *)

Section WalkDomain.

Variable fieldnames : list str.

Lemma store_is_Some k v d x :
  is_Some (store fieldnames k v d !! x) <->
  (k = x /\ k ∈ fieldnames) \/ is_Some (d !! x).
Proof.
  unfold store. case_bool_decide as Hk.
  - rewrite lookup_insert_is_Some. split.
    + intros [->|[_ H]]; auto.
    + intros [[-> _]|H]; [auto|].
      destruct (decide (k = x)); auto.
  - split; [auto|]. intros [[_ H]|H]; [contradiction | exact H].
Qed.

(** A key, once stored, stays. *)
Lemma walk_keeps_keys l st x :
  is_Some (metadata_dict st !! x) ->
  is_Some (metadata_dict (walk fieldnames st l) !! x).
Proof.
  revert st. induction l as [|s l IH]; intros st Hx; [exact Hx|].
  rewrite walk_cons. apply IH. rewrite walk_step_dict.
  apply store_is_Some. auto.
Qed.

(** A piece that assigns a configured key stores it. *)
Lemma walk_stores_assigned l st piece x :
  piece ∈ l -> assigned_key piece = Some x -> x ∈ fieldnames ->
  is_Some (metadata_dict (walk fieldnames st l) !! x).
Proof.
  revert st. induction l as [|s l IH]; intros st Hin Hkey Hx;
    [inversion Hin|].
  rewrite walk_cons. apply elem_of_cons in Hin as [->|Hin]; [|eauto].
  apply walk_keeps_keys. rewrite walk_step_dict. apply store_is_Some.
  rewrite walk_step_key, Hkey. simpl. auto.
Qed.

(** A key of the dictionary was there at the start, or is the key the walk
    started with, or was assigned by a piece. *)
Lemma walk_keys_origin l st x :
  is_Some (metadata_dict (walk fieldnames st l) !! x) ->
  is_Some (metadata_dict st !! x) \/ x = key st \/
  exists piece, piece ∈ l /\ assigned_key piece = Some x.
Proof.
  revert st. induction l as [|s l IH]; intros st; [auto|].
  rewrite walk_cons. intros [H|[H|(piece & Hin & Hkey)]]%IH.
  - rewrite walk_step_dict in H. apply store_is_Some in H as [[H _]|H];
      [|auto].
    rewrite walk_step_key in H.
    destruct (assigned_key s) as [k|] eqn:Hk; simpl in H; subst; [|auto].
    right. right. exists s. split; [left | exact Hk].
  - rewrite walk_step_key in H.
    destruct (assigned_key s) as [k|] eqn:Hk; simpl in H; subst; [|auto].
    right. right. exists s. split; [left | exact Hk].
  - right. right. exists piece. split; [right; exact Hin | exact Hkey].
Qed.

End WalkDomain.

(** X3: when the empty string is no configured name, the codes that have a
    value in the dictionary of an article are exactly the configured names
    that some piece of the split assigns: HD or SE for a piece in the
    inline form, and the code of every tag line. *)
Theorem parse_doc_keys_exact fieldnames doc code :
  [] ∉ fieldnames ->
  (is_Some (parse_doc fieldnames doc !! code) <->
   code ∈ fieldnames /\
   exists piece, piece ∈ re_split match_tag true doc /\
                 assigned_key piece = Some code).
Proof.
  intros Hnil. unfold parse_doc. split.
  - intros H. assert (Hin : code ∈ fieldnames)
      by (apply (parse_doc_keys fieldnames doc); exact H).
    split; [exact Hin|].
    apply walk_keys_origin in H as [H|[H|H]]; [| |exact H].
    + simpl in H. rewrite lookup_empty in H. destruct H; discriminate.
    + simpl in H. subst. contradiction.
  - intros [Hin (piece & Hpiece & Hkey)].
    eapply walk_stores_assigned; eassumption.
Qed.

Lemma parse_doc_keys_exact_witness :
  let doc := unlines ["HD Rates rise"; " BY"; "Jane Doe"; " LA"; ""]%string in
  is_Some (parse_doc default_fieldnames doc !! py "LA") <->
  py "LA" ∈ default_fieldnames /\
  exists piece, piece ∈ re_split match_tag true doc /\
                assigned_key piece = Some (py "LA").
Proof.
  intros doc. apply parse_doc_keys_exact.
  apply (bool_decide_unpack _). vm_compute. reflexivity.
Defined.

(** X4: the generic rule for any configured code, with the last tag line
    winning: when a tag line of a configured code is followed by free text
    and no later piece assigns that code, the dictionary maps the code to
    that text, trimmed, whatever came before. *)
Theorem parse_doc_last_tag_line fieldnames doc pre d t post :
  re_split match_tag true doc = pre ++ d :: t :: post ->
  is_tag d -> strip d ∈ fieldnames -> free_text t ->
  Forall (fun s => assigned_key s <> Some (strip d)) post ->
  parse_doc fieldnames doc !! strip d = Some (strip t).
Proof.
  intros Hsplit Hd Hin [Hhd Hse] Hlater.
  pose proof (re_split_shape doc) as Hshape. rewrite Hsplit in Hshape.
  destruct (shape_after_tag _ _ _ Hshape Hd)
    as (t' & post' & [= <- <-] & Ht & Htail).
  unfold parse_doc. rewrite Hsplit.
  change (pre ++ d :: t :: post) with (pre ++ [d; t] ++ post).
  rewrite app_assoc, walk_app.
  rewrite (walk_preserves_shape fieldnames (strip d) t post) by assumption.
  rewrite walk_app. simpl.
  rewrite (walk_step_text fieldnames _ t) by assumption. simpl.
  rewrite walk_step_tag by exact Hd. simpl.
  apply store_lookup, Hin.
Qed.

Lemma parse_doc_last_tag_line_witness :
  let doc :=
    unlines ["HD Rates rise"; " LA"; "English"; " LA"; "French"; " CY";
             "Norway"]%string in
  parse_doc default_fieldnames doc !! strip (unlines [" LA"; ""]%string)
  = Some (strip (unlines ["French"; ""]%string)).
Proof.
  intros doc.
  apply (parse_doc_last_tag_line default_fieldnames doc
           [unlines ["HD Rates rise"; ""]%string; unlines [" LA"; ""]%string;
            unlines ["English"; ""]%string]
           (unlines [" LA"; ""]%string) (unlines ["French"; ""]%string)
           [unlines [" CY"; ""]%string; py "Norway"]).
  - vm_compute. reflexivity.
  - apply match_is_tag. vm_compute. reflexivity.
  - apply (bool_decide_unpack _). vm_compute. reflexivity.
  - split; vm_compute; reflexivity.
  - repeat constructor; vm_compute; discriminate.
Defined.

(** ** The choice of field names *)

Section Restriction.

Variables fieldnames fieldnames' : list str.
Hypothesis Hsub : forall k, k ∈ fieldnames' -> k ∈ fieldnames.

Lemma store_restrict (k v : str) (d : gmap str str) :
  store fieldnames' k v (filter (fun kv => kv.1 ∈ fieldnames') d)
  = filter (fun kv => kv.1 ∈ fieldnames') (store fieldnames k v d).
Proof.
  apply map_eq. intros x. apply option_eq. intros y.
  rewrite map_lookup_filter_Some. unfold store. simpl.
  destruct (decide (k ∈ fieldnames')) as [Hk|Hk].
  - rewrite !bool_decide_eq_true_2 by auto.
    destruct (decide (k = x)) as [->|Hne].
    + rewrite !lookup_insert_eq. split; [intros [= ->]; auto | tauto].
    + rewrite !lookup_insert_ne by exact Hne.
      rewrite map_lookup_filter_Some. reflexivity.
  - rewrite (bool_decide_eq_false_2 (k ∈ fieldnames')) by exact Hk.
    rewrite map_lookup_filter_Some. simpl.
    case_bool_decide; [|reflexivity].
    destruct (decide (k = x)) as [->|Hne].
    + split; intros [_ Hx]; contradiction.
    + rewrite lookup_insert_ne by exact Hne. reflexivity.
Qed.

Lemma walk_restrict l st st' :
  key st' = key st -> value st' = value st ->
  metadata_dict st'
  = filter (fun kv => kv.1 ∈ fieldnames') (metadata_dict st) ->
  metadata_dict (walk fieldnames' st' l)
  = filter (fun kv => kv.1 ∈ fieldnames')
      (metadata_dict (walk fieldnames st l)).
Proof.
  revert st st'. induction l as [|s l IH]; intros st st' Hk Hv Hd;
    [exact Hd|].
  rewrite !walk_cons. apply IH.
  - rewrite !walk_step_key, Hk. reflexivity.
  - unfold walk_step. rewrite Hk, Hv.
    destruct (re_match (match_inline HD) s); [reflexivity|].
    destruct (re_match (match_inline SE) s); [reflexivity|].
    destruct (re_match match_tag s); reflexivity.
  - rewrite !walk_step_dict, Hd, <- store_restrict.
    rewrite !walk_step_key, Hk. f_equal.
    unfold walk_step. rewrite Hk, Hv.
    destruct (re_match (match_inline HD) s); [reflexivity|].
    destruct (re_match (match_inline SE) s); [reflexivity|].
    destruct (re_match match_tag s); reflexivity.
Qed.

End Restriction.

(** X5: choosing fewer field names only removes entries: the dictionary
    built with a sublist of the names is the dictionary built with all of
    them, restricted to the chosen names.  The values of the names that
    are kept do not change, and neither the order of the names nor a
    repeated name matters. *)
Theorem parse_doc_restrict fieldnames fieldnames' doc :
  (forall k, k ∈ fieldnames' -> k ∈ fieldnames) ->
  parse_doc fieldnames' doc
  = filter (fun kv => kv.1 ∈ fieldnames') (parse_doc fieldnames doc).
Proof.
  intros Hsub. unfold parse_doc.
  apply walk_restrict; auto; simpl; rewrite map_filter_empty; reflexivity.
Qed.

Lemma parse_doc_restrict_witness :
  let doc := unlines ["HD Rates rise"; " LA"; "English"]%string in
  parse_doc [py "LA"; py "LA"] doc
  = filter (fun kv => kv.1 ∈ [py "LA"; py "LA"])
      (parse_doc default_fieldnames doc).
Proof.
  intros doc. apply parse_doc_restrict.
  intros k Hk. apply elem_of_cons in Hk as [->|Hk].
  - apply (bool_decide_unpack _). vm_compute. reflexivity.
  - apply elem_of_cons in Hk as [->|Hk]; [|inversion Hk].
    apply (bool_decide_unpack _). vm_compute. reflexivity.
Defined.

(** ** The text that is kept and its blocks *)

Lemma search_before_free pat s a d b :
  pat <> [] -> search (match_lit pat) s = Some (a, d, b) ->
  forall a1 b1, a <> a1 ++ pat ++ b1.
Proof.
  intros Hpat (-> & _ & Hmin)%search_spec a1 b1 ->.
  specialize (Hmin (length a1)).
  rewrite <- !app_assoc, drop_app_length in Hmin.
  assert (H : match_lit pat (pat ++ b1 ++ d ++ b) = Some (length pat))
    by (apply match_lit_spec; eauto).
  rewrite Hmin in H; [discriminate|].
  rewrite !length_app. destruct pat; [congruence | simpl; lia].
Qed.

Lemma search_sum_matcher_ok : matcher_ok (match_lit search_sum).
Proof. apply match_lit_ok. discriminate. Qed.

Lemma sep_matcher_ok : matcher_ok (match_lit sep).
Proof. apply match_lit_ok. discriminate. Qed.

(** X6: the text kept of a file is a prefix of the file's text and holds
    no occurrence of the summary header, so cutting it again changes
    nothing. *)
Theorem drop_search_sum_clean text :
  (exists cut, text = drop_search_sum text ++ cut) /\
  (forall a b, drop_search_sum text <> a ++ search_sum ++ b) /\
  drop_search_sum (drop_search_sum text) = drop_search_sum text.
Proof.
  assert (Hfree : forall a b, drop_search_sum text <> a ++ search_sum ++ b).
  { unfold drop_search_sum.
    rewrite re_split_eq by exact search_sum_matcher_ok.
    destruct (search (match_lit search_sum) text) as [[[a d] b]|] eqn:Hs.
    - exact (search_before_free search_sum text a d b
               ltac:(discriminate) Hs).
    - apply search_lit_None_inv, Hs. }
  split; [|split; [exact Hfree | apply drop_search_sum_absent, Hfree]].
  unfold drop_search_sum.
  rewrite re_split_eq by exact search_sum_matcher_ok.
  destruct (search (match_lit search_sum) text) as [[[a d] b]|] eqn:Hs.
  - destruct (search_spec _ _ _ _ _ Hs) as (Heq & _ & _).
    exists (d ++ b). exact Heq.
  - exists []. rewrite app_nil_r. reflexivity.
Qed.

Lemma sep_split_hit s :
  re_split (match_lit sep) false (12 :: s)
  = [] :: re_split (match_lit sep) false s.
Proof. rewrite re_split_eq by exact sep_matcher_ok. reflexivity. Qed.

Lemma sep_split_miss x s :
  x <> 12 ->
  re_split (match_lit sep) false (x :: s)
  = match re_split (match_lit sep) false s with
    | p :: ps => (x :: p) :: ps
    | [] => []
    end.
Proof.
  intros Hx. rewrite !(re_split_eq (match_lit sep)) by exact sep_matcher_ok.
  assert (Hm : match_lit sep (x :: s) = None).
  { unfold match_lit.
    replace (starts_with sep (x :: s)) with false; [reflexivity|].
    symmetry. unfold sep. cbn [starts_with].
    apply andb_false_iff. left. apply N.eqb_neq. congruence. }
  simpl search at 1. rewrite Hm.
  destruct (search (match_lit sep) s) as [[[a d] b]|]; reflexivity.
Qed.

(** X7: the split on the page break loses nothing: the blocks joined by
    form feeds are the text, and no block holds a form feed. *)
Theorem page_break_split_join text :
  join sep (re_split (match_lit sep) false text) = text /\
  Forall (fun block => 12 ∉ block) (re_split (match_lit sep) false text).
Proof.
  induction text as [|x s [IHj IHf]].
  - split; [reflexivity|]. repeat constructor. inversion 1.
  - pose proof (re_split_not_nil (match_lit sep) false s) as Hne.
    destruct (decide (x = 12)) as [->|Hx].
    + rewrite sep_split_hit. split.
      * destruct (re_split (match_lit sep) false s) as [|p ps];
          [congruence|].
        change (join sep ([] :: p :: ps)) with (sep ++ join sep (p :: ps)).
        rewrite IHj. reflexivity.
      * constructor; [inversion 1 | exact IHf].
    + rewrite sep_split_miss by exact Hx.
      destruct (re_split (match_lit sep) false s) as [|p ps]; [congruence|].
      inversion IHf as [|? ? Hp Hps]; subst. split.
      * destruct ps as [|p' ps]; simpl in *; congruence.
      * constructor; [|exact Hps].
        intros [Heq|Hin]%elem_of_cons; [congruence | contradiction].
Qed.

Lemma rstrip_app_space s q :
  Forall (fun c => isspace c = true) q -> rstrip (s ++ q) = rstrip s.
Proof.
  intros Hq. unfold rstrip. rewrite rev_app_distr, lstrip_app_space;
    [reflexivity|].
  apply Forall_forall. intros c Hc. rewrite Forall_forall in Hq. apply Hq.
  apply list_elem_of_In. apply list_elem_of_In in Hc. apply in_rev. exact Hc.
Qed.

Lemma strip_app_space p s q :
  Forall (fun c => isspace c = true) p ->
  Forall (fun c => isspace c = true) q ->
  strip (p ++ s ++ q) = strip s.
Proof.
  intros Hp Hq. unfold strip. rewrite lstrip_app_space by exact Hp.
  destruct (decide (lstrip s = [])) as [Hnil|Hne].
  - rewrite Hnil. destruct (lstrip_suffix s) as (p' & Hp' & Hsp).
    rewrite Hnil, app_nil_r in Hp'. subst p'.
    rewrite lstrip_all_space by (apply Forall_app; auto). reflexivity.
  - rewrite lstrip_app_keep by exact Hne. apply rstrip_app_space, Hq.
Qed.

(** X8: white space around a block does not matter: a block gives the same
    row, or none, with any white space added before and after it. *)
Theorem process_doc_surrounding_space fieldnames df block p q :
  Forall (fun c => isspace c = true) p ->
  Forall (fun c => isspace c = true) q ->
  process_doc fieldnames df (p ++ block ++ q)
  = process_doc fieldnames df block.
Proof.
  intros Hp Hq. unfold process_doc. rewrite strip_app_space by assumption.
  reflexivity.
Qed.

Lemma process_doc_surrounding_space_witness :
  let block := unlines ["HD Rates rise"; " LA"; "English"]%string in
  process_doc default_fieldnames (new_frame default_fieldnames)
    ([nl; 32] ++ block ++ [32; nl; nl])
  = process_doc default_fieldnames (new_frame default_fieldnames) block.
Proof.
  intros block. apply process_doc_surrounding_space; repeat constructor.
Defined.

(** ** Articles are parsed one by one *)

Lemma sep_split_app a b :
  re_split (match_lit sep) false (a ++ sep ++ b)
  = re_split (match_lit sep) false a ++ re_split (match_lit sep) false b.
Proof.
  induction a as [|x a IH].
  - change ([] ++ sep ++ b) with (12 :: b). rewrite sep_split_hit.
    reflexivity.
  - change ((x :: a) ++ sep ++ b) with (x :: (a ++ sep ++ b)).
    destruct (decide (x = 12)) as [->|Hx].
    + rewrite !sep_split_hit, IH. reflexivity.
    + rewrite !sep_split_miss, IH by exact Hx.
      pose proof (re_split_not_nil (match_lit sep) false a) as Hne.
      destruct (re_split (match_lit sep) false a); [congruence|reflexivity].
Qed.

(** No occurrence of a pattern starts in a text that has none, nor on the
    character after it, when that character is not in the pattern. *)
Lemma no_match_across pat a c b i :
  c ∉ pat -> (forall x y, a <> x ++ pat ++ y) -> (i <= length a)%nat ->
  match_lit pat (drop i (a ++ c :: b)) = None.
Proof.
  intros Hc Ha Hi.
  destruct (match_lit pat (drop i (a ++ c :: b))) as [n|] eqn:Hn;
    [|reflexivity].
  exfalso. apply match_lit_spec in Hn as [_ [r Hr]].
  rewrite drop_app_le in Hr by exact Hi.
  destruct (le_lt_dec (length pat) (length (drop i a))) as [Hle|Hlt].
  - apply (f_equal (take (length pat))) in Hr.
    rewrite take_app_le, take_app_length in Hr by exact Hle.
    apply (Ha (take i a) (drop (length pat) (drop i a))).
    assert (Hu : drop i a = pat ++ drop (length pat) (drop i a)).
    { etransitivity; [symmetry; apply (take_drop (length pat))|].
      f_equal. exact Hr. }
    rewrite <- Hu, take_drop. reflexivity.
  - pose proof (list_lookup_middle (drop i a) b c _ eq_refl) as Hmid.
    rewrite Hr, lookup_app_l in Hmid by exact Hlt.
    apply Hc. eapply list_elem_of_lookup_2. exact Hmid.
Qed.

Lemma search_skip_prefix m p b :
  (forall i, (i < length p)%nat -> m (drop i (p ++ b)) = None) ->
  search m (p ++ b)
  = match search m b with
    | Some (x, d, y) => Some (p ++ x, d, y)
    | None => None
    end.
Proof.
  intros Hp. induction p as [|c p IH]; simpl.
  - destruct b; simpl; destruct (m _); try reflexivity;
      destruct (search m _) as [[[? ?] ?]|]; reflexivity.
  - pose proof (Hp 0%nat) as H0. simpl in H0. rewrite H0 by lia.
    rewrite IH by (intros i Hi; apply (Hp (S i)); simpl; lia).
    destruct (search m b) as [[[x d] y]|]; reflexivity.
Qed.

Lemma drop_search_sum_app_sep a b :
  (forall x y, a <> x ++ search_sum ++ y) ->
  drop_search_sum (a ++ sep ++ b) = a ++ sep ++ drop_search_sum b.
Proof.
  intros Ha. unfold drop_search_sum.
  rewrite !(re_split_eq (match_lit search_sum))
    by exact search_sum_matcher_ok.
  rewrite (app_assoc a sep b), search_skip_prefix.
  - destruct (search (match_lit search_sum) b) as [[[x d] y]|]; simpl;
      rewrite <- app_assoc; reflexivity.
  - intros i Hi. rewrite <- app_assoc. apply no_match_across.
    + apply (bool_decide_unpack _). vm_compute. reflexivity.
    + exact Ha.
    + rewrite length_app in Hi. simpl in Hi. lia.
Qed.

Lemma articles_page_break a b :
  (forall x y, a <> x ++ search_sum ++ y) ->
  articles (a ++ sep ++ b) = articles a ++ articles b.
Proof.
  intros Ha. unfold articles.
  rewrite drop_search_sum_app_sep by exact Ha.
  rewrite (drop_search_sum_absent a) by exact Ha.
  rewrite sep_split_app, map_app, filter_app. reflexivity.
Qed.

Lemma text_rows_no_columns text : text_rows [] text = [].
Proof.
  unfold text_rows. rewrite load_text_spec.
  destruct (articles text); reflexivity.
Qed.

Lemma load_docs_app fieldnames docs docs' df :
  load_docs fieldnames df (docs ++ docs')
  = match load_docs fieldnames df docs with
    | Some df' => load_docs fieldnames df' docs'
    | None => None
    end.
Proof.
  revert df. induction docs as [|doc docs IH]; intros df; [reflexivity|].
  simpl. destruct (process_doc fieldnames df doc); [apply IH | reflexivity].
Qed.

(** X9: articles are parsed one by one: the rows of a text made of two
    texts around a page break are the rows of the first, which has no
    summary header, followed by the rows of the second; loading the text is
    loading the first and then the second. *)
Theorem text_rows_page_break fieldnames a b :
  (forall x y, a <> x ++ search_sum ++ y) ->
  text_rows fieldnames (a ++ sep ++ b)
  = text_rows fieldnames a ++ text_rows fieldnames b /\
  forall df,
    load_text fieldnames df (a ++ sep ++ b)
    = match load_text fieldnames df a with
      | Some df' => load_text fieldnames df' b
      | None => None
      end.
Proof.
  intros Ha. split.
  - destruct fieldnames as [|x l]; [rewrite !text_rows_no_columns; reflexivity|].
    rewrite !text_rows_eq by (left; discriminate).
    rewrite articles_page_break by exact Ha.
    unfold article_rows. apply map_app.
  - intros df. unfold load_text.
    rewrite drop_search_sum_app_sep by exact Ha.
    rewrite (drop_search_sum_absent a) by exact Ha.
    rewrite sep_split_app. apply load_docs_app.
Qed.

Lemma text_rows_page_break_witness :
  let a := unlines ["HD First"; " LA"; "English"; ""]%string in
  let b := unlines ["HD Second"]%string ++ search_sum ++ py "HD Third" in
  text_rows default_fieldnames (a ++ sep ++ b)
  = text_rows default_fieldnames a ++ text_rows default_fieldnames b.
Proof.
  intros a b. apply text_rows_page_break.
  apply search_lit_None_inv. vm_compute. reflexivity.
Defined.

(** ** The run over the folder *)

(** X10: the number of articles processed, [len(df)], is the number of
    blocks, over all files, that are not empty once trimmed: every such
    block gives one row, whatever it holds. *)
Theorem len_df_counts_articles fieldnames read path names df :
  factiva_to_df fieldnames read path names = Some df ->
  exists texts,
    Forall2 (fun file text => read file = Some text)
            (files_all path names) texts /\
    len_df df = sum_list (map count_articles texts).
Proof.
  intros Hrun. unfold factiva_to_df in Hrun.
  apply load_files_rows in Hrun as (texts & Hread & _ & Hrows & _).
  exists texts. split; [exact Hread|].
  unfold len_df. rewrite Hrows. simpl. unfold article_rows.
  rewrite length_map. clear.
  induction texts as [|t texts IH]; [reflexivity|].
  simpl. rewrite length_app, IH. reflexivity.
Qed.

Lemma len_df_counts_articles_witness :
  let read := fun _ : str =>
    Some (unlines ["HD First"; ""]%string ++ sep ++ sep ++ py "HD Second") in
  exists df,
    factiva_to_df default_fieldnames read (py "rtfs/") [py "a.txt"] = Some df /\
    len_df df = 2%nat.
Proof.
  intros read.
  destruct (factiva_to_df default_fieldnames read (py "rtfs/") [py "a.txt"])
    as [df|] eqn:Hrun; [|vm_compute in Hrun; discriminate].
  exists df. split; [reflexivity|].
  destruct (len_df_counts_articles _ _ _ _ _ Hrun) as (texts & Hread & ->).
  vm_compute in Hread.
  inversion Hread as [|? t ? ? Ht Hnil]; subst.
  inversion Hnil; subst. injection Ht as <-.
  vm_compute. reflexivity.
Defined.

Lemma load_files_None fieldnames read files df :
  load_files fieldnames read df files = None <->
  Exists (fun file =>
            read file = None \/
            (columns df = [] /\
             exists text, read file = Some text /\ articles text <> []))
         files.
Proof.
  revert df. induction files as [|f files IH]; intros df; simpl.
  - split; [discriminate | inversion 1].
  - destruct (read f) as [text|] eqn:Hf.
    + destruct (load_text fieldnames df text) as [df1|] eqn:Hload.
      * apply load_text_Some in Hload as Hsome. destruct Hsome as [Hc _].
        rewrite IH, Hc. split; [intros H; right; exact H|].
        intros H. inversion H as [? ? Hhd|? ? Htl]; subst; [|exact Htl].
        destruct Hhd as [Hn|(Hcols & text' & Hr & Ha)]; [congruence|].
        assert (text' = text) as -> by congruence.
        assert (Hn : load_text fieldnames df text = None)
          by (apply load_text_None; auto).
        congruence.
      * apply load_text_None in Hload. split; [|reflexivity].
        intros _. left. right. destruct Hload. eauto.
    + split; [intros _; left; left; exact Hf | reflexivity].
Qed.

(** X11: an exception stops the whole run, which then returns no data
    frame, not even a partial one.  The run fails exactly when some listed
    file cannot be read or, there being no configured field name, has an
    article (the row assignment raises on a frame without columns).  With a
    configured field name the run returns a data frame exactly when every
    listed file can be read. *)
Theorem factiva_to_df_fails_iff fieldnames read path names :
  (factiva_to_df fieldnames read path names = None <->
   Exists (fun file =>
             read file = None \/
             (fieldnames = [] /\
              exists text, read file = Some text /\ articles text <> []))
          (files_all path names)) /\
  (fieldnames <> [] ->
   (factiva_to_df fieldnames read path names = None <->
    Exists (fun file => read file = None) (files_all path names))).
Proof.
  assert (H : factiva_to_df fieldnames read path names = None <->
              Exists (fun file =>
                read file = None \/
                (fieldnames = [] /\
                 exists text, read file = Some text /\ articles text <> []))
              (files_all path names)).
  { unfold factiva_to_df. apply load_files_None. }
  split; [exact H|].
  intros Hfn. rewrite H.
  split; intros He; (eapply Exists_impl; [exact He|]); [|auto].
  intros file [Hn|[Hnil _]]; [exact Hn | congruence].
Qed.

(** X12: the run reads the listed files and no other: two file systems
    that agree on the listed files give the same result. *)
Theorem factiva_to_df_reads_listed fieldnames read read' path names :
  (forall file, file ∈ files_all path names -> read file = read' file) ->
  factiva_to_df fieldnames read path names
  = factiva_to_df fieldnames read' path names.
Proof.
  unfold factiva_to_df. generalize (new_frame fieldnames) as df.
  induction (files_all path names) as [|f files IH]; intros df Hagree;
    simpl; [reflexivity|].
  rewrite <- (Hagree f) by left.
  destruct (read f) as [text|]; [|reflexivity].
  destruct (load_text fieldnames df text) as [df'|]; [|reflexivity].
  apply IH. intros file Hin. apply Hagree. right. exact Hin.
Qed.

Lemma factiva_to_df_reads_listed_witness :
  let names := [py "a.txt"; py "notes.md"] in
  let read := fun file : str =>
    if bool_decide (file = py "rtfs/a.txt") then Some (py "HD First")
    else None in
  let read' := fun file : str =>
    if bool_decide (file = py "rtfs/a.txt") then Some (py "HD First")
    else Some (py "HD Other") in
  factiva_to_df default_fieldnames read (py "rtfs/") names
  = factiva_to_df default_fieldnames read' (py "rtfs/") names.
Proof.
  intros names read read'. apply factiva_to_df_reads_listed.
  intros file Hin.
  assert (Hfiles : files_all (py "rtfs/") names = [py "rtfs/a.txt"])
    by (vm_compute; reflexivity).
  rewrite Hfiles in Hin. apply list_elem_of_singleton in Hin as ->.
  reflexivity.
Defined.

(** X13: a folder with no entry that [glob] matches gives the empty table
    with the configured columns, and no file is read. *)
Theorem factiva_to_df_no_files fieldnames read path names :
  Forall (fun name => ~ (ishidden name = false /\ fnmatch_txt name = true))
         names ->
  factiva_to_df fieldnames read path names = Some (new_frame fieldnames).
Proof.
  intros Hnone. unfold factiva_to_df, files_all, glob_txt.
  rewrite filter_none by exact Hnone. reflexivity.
Qed.

Lemma factiva_to_df_no_files_witness :
  factiva_to_df default_fieldnames (fun _ => None) (py "rtfs/")
    [py "a.rtf"; py ".a.txt"; py "txt"]
  = Some (new_frame default_fieldnames).
Proof.
  apply factiva_to_df_no_files.
  repeat constructor; intros [H1 H2]; vm_compute in H1, H2; discriminate.
Defined.

(** X14: every matching entry is processed once: when the folder lists no
    name twice, no file is listed twice. *)
Theorem files_all_NoDup path names :
  NoDup names -> NoDup (files_all path names).
Proof.
  intros Hnd. unfold files_all. rewrite merge_sort_Permutation.
  unfold glob_txt. change (map ?f ?l) with (f <$> l).
  apply NoDup_fmap_2; [|apply NoDup_filter, Hnd].
  apply os_path_join_inj.
Qed.

Lemma files_all_NoDup_witness :
  NoDup (files_all (py "rtfs/") [py "b.txt"; py "a.txt"; py ".a.txt"]).
Proof.
  apply files_all_NoDup.
  apply (bool_decide_unpack _). vm_compute. reflexivity.
Defined.

(** ** The name printed for a file *)

Lemma lstrip_chars_app_in chars p s :
  Forall (fun c => c ∈ chars) p ->
  lstrip_chars chars (p ++ s) = lstrip_chars chars s.
Proof.
  induction 1 as [|c p Hc _ IH]; simpl; [reflexivity|].
  rewrite bool_decide_eq_true_2 by exact Hc. exact IH.
Qed.

Lemma lstrip_chars_head chars s c :
  head (lstrip_chars chars s) = Some c -> c ∉ chars.
Proof.
  induction s as [|x s IH]; simpl; [discriminate|].
  case_bool_decide as Hx; [exact IH|]. intros [= <-]. exact Hx.
Qed.

Lemma lstrip_chars_keep chars s :
  (forall c, head s = Some c -> c ∉ chars) -> lstrip_chars chars s = s.
Proof.
  destruct s as [|x s]; simpl; [reflexivity|]. intros H.
  rewrite bool_decide_eq_false_2 by (apply H; reflexivity). reflexivity.
Qed.

Lemma lstrip_chars_suffix chars s :
  exists p, s = p ++ lstrip_chars chars s.
Proof.
  induction s as [|x s [p IH]]; simpl; [exists []; reflexivity|].
  case_bool_decide; [|exists []; reflexivity].
  exists (x :: p). simpl. congruence.
Qed.

Lemma strip_chars_substring chars s : substring (strip_chars chars s) s.
Proof.
  unfold strip_chars, rstrip_chars.
  destruct (lstrip_chars_suffix chars s) as [p Hp].
  destruct (lstrip_chars_suffix chars (rev (lstrip_chars chars s)))
    as [q Hq].
  exists p, (rev q). rewrite <- rev_app_distr, <- Hq, rev_involutive.
  exact Hp.
Qed.

Lemma strip_chars_ends chars s :
  (forall c, head (strip_chars chars s) = Some c -> c ∉ chars) /\
  (forall c, last (strip_chars chars s) = Some c -> c ∉ chars).
Proof.
  unfold strip_chars, rstrip_chars. split; intros c Hc.
  - set (y := lstrip_chars chars s) in *.
    destruct (lstrip_chars_suffix chars (rev y)) as [q Hq].
    apply (f_equal (@rev N)) in Hq.
    rewrite rev_involutive, rev_app_distr in Hq.
    destruct (rev (lstrip_chars chars (rev y))) as [|c' r]; [discriminate|].
    injection Hc as ->. apply (lstrip_chars_head chars s).
    fold y. rewrite Hq. reflexivity.
  - rewrite last_rev_head in Hc. eapply lstrip_chars_head. exact Hc.
Qed.

Lemma strip_chars_keep chars s :
  (forall c, head s = Some c -> c ∉ chars) ->
  (forall c, last s = Some c -> c ∉ chars) ->
  strip_chars chars s = s.
Proof.
  intros Hh Hl. unfold strip_chars, rstrip_chars.
  rewrite (lstrip_chars_keep chars s Hh).
  rewrite lstrip_chars_keep, rev_involutive; [reflexivity|].
  intros c Hc. rewrite head_rev_last in Hc. auto.
Qed.

Lemma drop_last4_txt s : drop_last4 (s ++ py ".txt") = s.
Proof.
  unfold drop_last4. rewrite length_app.
  change (length (py ".txt")) with 4%nat.
  rewrite Nat.add_sub. apply take_app_length.
Qed.

Lemma file_id_strips_path_chars_aux path base :
  file_id path (path ++ base ++ py ".txt") = strip_chars path base /\
  (forall c, head (strip_chars path base) = Some c -> c ∉ path) /\
  (forall c, last (strip_chars path base) = Some c -> c ∉ path).
Proof.
  split; [|apply strip_chars_ends].
  unfold file_id. rewrite app_assoc, drop_last4_txt.
  unfold strip_chars. rewrite lstrip_chars_app_in; [reflexivity|].
  apply Forall_forall. auto.
Qed.

(** X15: the name printed for the file [path + base + ".txt"] is [base]
    without its leading and trailing characters that occur anywhere in
    [path]: the argument of [strip] is a set of characters, not a prefix.
    It is a part of [base] and neither begins nor ends with a character of
    [path]. *)
Theorem file_id_strips_path_chars path base :
  file_id path (path ++ base ++ py ".txt") = strip_chars path base /\
  substring (file_id path (path ++ base ++ py ".txt")) base /\
  (forall c, head (file_id path (path ++ base ++ py ".txt")) = Some c ->
             c ∉ path) /\
  (forall c, last (file_id path (path ++ base ++ py ".txt")) = Some c ->
             c ∉ path).
Proof.
  destruct (file_id_strips_path_chars_aux path base) as (Heq & Hh & Hl).
  rewrite Heq. split; [reflexivity|].
  split; [apply strip_chars_substring | split; assumption].
Qed.

(** X16: the name printed is the base name itself exactly when the base
    name neither begins nor ends with a character that occurs in
    [path]. *)
Theorem file_id_exact_iff path base :
  file_id path (path ++ base ++ py ".txt") = base <->
  (forall c, head base = Some c -> c ∉ path) /\
  (forall c, last base = Some c -> c ∉ path).
Proof.
  destruct (file_id_strips_path_chars_aux path base) as (Heq & Hends).
  rewrite Heq. split.
  - intros H. rewrite H in Hends. exact Hends.
  - intros [Hh Hl]. apply strip_chars_keep; assumption.
Qed.

Lemma file_id_exact_iff_witness :
  file_id (py "rtfs/") (py "rtfs/" ++ py "Factiva-2023" ++ py ".txt")
  = py "Factiva-2023".
Proof.
  apply file_id_exact_iff.
  split; intros c [= <-]; apply (bool_decide_unpack _); vm_compute;
    reflexivity.
Defined.

Example file_id_sample :
  file_id (py "rtfs/") (py "rtfs/Factiva-2023.txt") = py "Factiva-2023" /\
  file_id (py "rtfs/") (py "rtfs/start.txt") = py "a".
Proof. split; vm_compute; reflexivity. Qed.

(** ** The progress lines *)




(** ** Text before the first tag *)

(** X18: text at the start of an article that has no inline form is
    recorded under no code: when the empty string is no configured name
    and the first tag line, if there is one, is followed by free text, the
    dictionary is the one the walk builds from the pieces after that
    text. *)
Theorem parse_doc_leading_text fieldnames doc t post :
  [] ∉ fieldnames ->
  re_split match_tag true doc = t :: post ->
  free_text t ->
  (post = [] \/ exists d t' post', post = d :: t' :: post' /\ free_text t') ->
  parse_doc fieldnames doc
  = metadata_dict (walk fieldnames walk_init post).
Proof.
  intros Hnil Hsplit [Hhd Hse] Hpost.
  pose proof (re_split_shape doc) as Hshape. rewrite Hsplit in Hshape.
  pose proof (shape_head _ _ Hshape) as Ht.
  unfold parse_doc. rewrite Hsplit, walk_cons.
  rewrite walk_step_text by assumption. simpl.
  rewrite store_skip by exact Hnil.
  destruct Hpost as [->|(d & t' & post' & -> & Hhd' & Hse')]; [reflexivity|].
  destruct (shape_tail_cases _ _ Hshape)
    as [[=]|(d1 & post1 & [= <- <-] & Hd & Htail)].
  pose proof (shape_head _ _ Htail) as Ht'.
  simpl. f_equal. f_equal.
  rewrite !(walk_step_text fieldnames _ t') by assumption.
  rewrite !walk_step_tag by exact Hd. simpl.
  rewrite !store_store. reflexivity.
Qed.

Lemma parse_doc_leading_text_witness :
  let doc :=
    unlines ["Document 42"; "By Jane Doe"; " HD"; "Rates rise"]%string in
  parse_doc default_fieldnames doc
  = metadata_dict
      (walk default_fieldnames walk_init
         [unlines [" HD"; ""]%string; py "Rates rise"]).
Proof.
  intros doc.
  apply (parse_doc_leading_text default_fieldnames doc
           (unlines ["Document 42"; "By Jane Doe"; ""]%string)).
  - apply (bool_decide_unpack _). vm_compute. reflexivity.
  - vm_compute. reflexivity.
  - split; vm_compute; reflexivity.
  - right. eexists _, _, _. split; [reflexivity|].
    split; vm_compute; reflexivity.
Defined.

(** ** A first field that is neither headline nor section *)

Lemma field_code_free_text code t :
  field_code code -> code <> HD -> code <> SE ->
  free_text ((code ++ [nl]) ++ t).
Proof.
  intros [Hlen Hup] Hhd Hse.
  assert (H : forall other, length other = 2%nat -> code <> other ->
            re_match (match_inline other) ((code ++ [nl]) ++ t) = false).
  { intros other Hother Hne.
    destruct (re_match (match_inline other) ((code ++ [nl]) ++ t)) eqn:Hm;
      [|reflexivity].
    exfalso. apply inline_spec in Hm as (w & r & Heq & Hw).
    destruct other as [|o1 [|o2 [|? ?]]]; try discriminate.
    destruct code as [|a [|b [|c [|? ?]]]]; simpl in Hlen; try lia.
    - injection Heq as -> -> _. congruence.
    - injection Heq as -> -> -> _.
      inversion Hup as [|? ? _ Hup']; subst.
      inversion Hup' as [|? ? _ Hup'']; subst.
      inversion Hup'' as [|? ? Hc _]; subst.
      apply isupper_not_space in Hc. congruence. }
  split; apply H; auto.
Qed.

(** X19: in the generic layout a first field whose tag is neither HD nor
    SE is lost and the fields after it are kept: under the side conditions
    of the round trip, and when the empty string is no configured name, the
    block parses to the mapping of the fields after the first. *)
Theorem first_field_lost fieldnames f rest :
  generic_layout fieldnames (f :: rest) ->
  tag f <> HD -> tag f <> SE -> [] ∉ fieldnames ->
  Forall (fun g => free_text (text g)) rest ->
  texts_clear (nl :: text f) rest ->
  parse_doc fieldnames (strip (layout (f :: rest))) = record_of rest.
Proof.
  intros [Hnd Hall] Hhd Hse Hnil Hfree Hclear.
  apply NoDup_cons in Hnd as [_ Hnd].
  inversion Hall as [|? ? (Hw & Hcode & Hin & Hv & Hnone) Hrest]; subst.
  rewrite strip_layout; try assumption;
    [|eapply Forall_impl; [exact Hrest|]; intros g (?&?&?&?&?); auto].
  assert (Hclear' : texts_clear (tag f ++ nl :: text f) rest).
  { change (tag f ++ nl :: text f) with (tag f ++ (nl :: text f)).
    apply texts_clear_prefix; [|exact Hclear].
    apply field_code_no_space, Hcode. }
  pose proof (re_split_shape (layout_after_r (tag f ++ nl :: text f) rest))
    as Hshape.
  unfold parse_doc. rewrite split_layout in *;
    try (eapply Forall_impl; [exact Hrest|]; intros g (?&?&?&?&?); auto);
    try exact Hclear'.
  pose proof (shape_head _ _ Hshape) as Ht.
  revert Ht.
  change (tag f ++ nl :: text f) with (tag f ++ [nl] ++ text f).
  rewrite app_assoc, piece_text_app by exact Hv. intros Ht.
  destruct (field_code_free_text (tag f) (piece_text rest (text f))
              Hcode Hhd Hse) as [Hfh Hfs].
  rewrite walk_cons, walk_pieces.
  - rewrite walk_step_text by assumption. simpl.
    rewrite store_skip by exact Hnil.
    rewrite foldl_insert_fields by exact Hnd.
    apply (right_id_L ∅ (∪)).
  - rewrite Forall_forall in Hrest, Hfree. apply Forall_forall.
    intros g Hg. specialize (Hrest g Hg). specialize (Hfree g Hg).
    simpl in *. tauto.
Qed.

Lemma first_field_lost_witness :
  let f := Field nl (py "LA") (py "English") in
  let rest := [Field nl (py "CY") (py "Norway");
               Field 32 (py "PUB") (py "Reuters ")] in
  parse_doc default_fieldnames (strip (layout (f :: rest))) = record_of rest.
Proof.
  intros f rest. apply first_field_lost.
  - split; [apply (bool_decide_unpack _); vm_compute; reflexivity|].
    repeat (apply Forall_cons; split;
            [repeat split;
             try (apply (bool_decide_unpack _); vm_compute; reflexivity);
             try (vm_compute; discriminate)|]).
    constructor.
  - vm_compute. discriminate.
  - vm_compute. discriminate.
  - apply (bool_decide_unpack _). vm_compute. reflexivity.
  - repeat constructor; vm_compute; reflexivity.
  - vm_compute. auto.
Defined.
